(** * QGAN tutorial: state-vector semantics of the circuits, the cost
      functions and the two-phase training loop.

    The notebook [tutorial_QGAN.ipynb] builds three sub-circuits ([real],
    [generator], [discriminator]) on a 3-wire device, measures Pauli-Z on
    wire 2, turns the expectation values into the two cost functions and
    runs 50 optimiser steps on the discriminator followed by 50 on the
    generator.

    Amplitudes are complex numbers over the real numbers of the Standard
    Library: rounding of the simulator's floating-point arithmetic is not
    part of this model. *)

From Stdlib Require Import Reals Lra Lia List Bool Arith.
Import ListNotations.

Local Open Scope R_scope.

(* ================================================================== *)
(** ** Complex amplitudes *)
(* ================================================================== *)

(** A complex number, by its real and imaginary parts. *)
Record C : Type := mkC { re : R; im : R }.

Module Cx.

Definition mk : R -> R -> C := mkC.

Definition zero : C := mk 0 0.
Definition one : C := mk 1 0.
Definition of_R (x : R) : C := mk x 0.

Definition add (a b : C) : C := mk (re a + re b) (im a + im b).
Definition mul (a b : C) : C :=
  mk (re a * re b - im a * im b) (re a * im b + im a * re b).
Definition conj (a : C) : C := mk (re a) (- im a).
Definition scale (x : R) (a : C) : C := mk (x * re a) (x * im a).

(** Squared modulus. *)
Definition abs2 (a : C) : R := re a * re a + im a * im a.

End Cx.

(* ================================================================== *)
(** ** Gates and their matrices *)
(* ================================================================== *)

(** A matrix is a list of rows, as the array a gate's [matrix()] returns. *)
Definition Matrix : Type := list (list C).

Definition mget (M : Matrix) (i j : nat) : C := nth j (nth i M []) Cx.zero.

(** [Wire] is the integer label passed as [wires=...]. *)
Definition Wire : Type := nat.

(** The device of the notebook: [qml.device('cirq.simulator', wires=3)]. *)
Definition n_wires : nat := 3.
Definition dim : nat := (2 ^ n_wires)%nat.

(** The operations the notebook queues. *)
Inductive Gate : Type :=
| Hadamard (w : Wire)
| RX (theta : R) (w : Wire)
| RY (theta : R) (w : Wire)
| RZ (theta : R) (w : Wire)
| Rot (phi theta omega : R) (w : Wire)
| CNOT (c t : Wire).

Arguments Hadamard w%_nat.
Arguments RX theta%_R w%_nat.
Arguments RY theta%_R w%_nat.
Arguments RZ theta%_R w%_nat.
Arguments Rot (phi theta omega)%_R w%_nat.
Arguments CNOT (c t)%_nat.

Inductive Pauli : Type := PauliX | PauliY | PauliZ.

(** An observable is a Pauli operator tagged with its wire. *)
Record Observable : Type := Obs { obs_pauli : Pauli; obs_wire : Wire }.

Arguments Obs obs_pauli obs_wire%_nat.

Module Mat.

Definition i_unit : C := Cx.mk 0 1.

(** Modelled from the spec: the matrix of [qml.Hadamard], which the
    notebook imports from the circuit library; section 4.2 gives it as
    (1/sqrt 2) [[1,1],[1,-1]]. *)
Definition hadamard : Matrix :=
  [ [ Cx.of_R (/ sqrt 2); Cx.of_R (/ sqrt 2) ];
    [ Cx.of_R (/ sqrt 2); Cx.of_R (- / sqrt 2) ] ].

(** Modelled from the spec: the matrix of [qml.RX], imported by the
    notebook; section 4.2 gives RotationX(theta) = exp(-i theta X / 2). *)
Definition rx (t : R) : Matrix :=
  [ [ Cx.mk (cos (t / 2)) 0; Cx.mk 0 (- sin (t / 2)) ];
    [ Cx.mk 0 (- sin (t / 2)); Cx.mk (cos (t / 2)) 0 ] ].

(** Modelled from the spec: the matrix of [qml.RY], imported by the
    notebook; section 4.2 gives RotationY(theta) = exp(-i theta Y / 2). *)
Definition ry (t : R) : Matrix :=
  [ [ Cx.mk (cos (t / 2)) 0; Cx.mk (- sin (t / 2)) 0 ];
    [ Cx.mk (sin (t / 2)) 0; Cx.mk (cos (t / 2)) 0 ] ].

(** Modelled from the spec: the matrix of [qml.RZ], imported by the
    notebook; section 4.2 gives RotationZ(theta) = exp(-i theta Z / 2). *)
Definition rz (t : R) : Matrix :=
  [ [ Cx.mk (cos (t / 2)) (- sin (t / 2)); Cx.zero ];
    [ Cx.zero; Cx.mk (cos (t / 2)) (sin (t / 2)) ] ].

(** Product of two 2x2 matrices. *)
Definition mul2 (A B : Matrix) : Matrix :=
  map (fun i =>
         map (fun j =>
                Cx.add (Cx.mul (mget A i 0) (mget B 0 j))
                       (Cx.mul (mget A i 1) (mget B 1 j)))
             (seq 0 2))
      (seq 0 2).

(** Modelled from the spec: the matrix of [qml.Rot], imported by the
    notebook; section 4.2 gives GeneralRotation(phi, theta, omega) as the
    composition RZ(omega) . RY(theta) . RZ(phi). *)
Definition rot (phi theta omega : R) : Matrix :=
  mul2 (rz omega) (mul2 (ry theta) (rz phi)).

(** Modelled from the spec: the matrix of [qml.CNOT], imported by the
    notebook; section 4.2 gives ControlledNot as the 4x4 permutation
    matrix that flips the target bit when the control bit is 1.  Rows and
    columns are indexed by 2 * control + target. *)
Definition cnot : Matrix :=
  [ [ Cx.one; Cx.zero; Cx.zero; Cx.zero ];
    [ Cx.zero; Cx.one; Cx.zero; Cx.zero ];
    [ Cx.zero; Cx.zero; Cx.zero; Cx.one ];
    [ Cx.zero; Cx.zero; Cx.one; Cx.zero ] ].

(** Modelled from the spec: the matrices of [qml.PauliX], [qml.PauliY]
    and [qml.PauliZ], imported by the notebook; section 3 names them as
    the Hermitian single-qubit Pauli operators. *)
Definition pauli (p : Pauli) : Matrix :=
  match p with
  | PauliX => [ [ Cx.zero; Cx.one ]; [ Cx.one; Cx.zero ] ]
  | PauliY => [ [ Cx.zero; Cx.mk 0 (-1) ]; [ i_unit; Cx.zero ] ]
  | PauliZ => [ [ Cx.one; Cx.zero ]; [ Cx.zero; Cx.of_R (-1) ] ]
  end.

End Mat.

(* ================================================================== *)
(** ** The state vector and gate application *)
(* ================================================================== *)

(** The amplitude vector of the register: [dim] complex numbers, wire 0
    being the most significant bit of the basis index. *)
Definition State : Type := list C.

Definition amp (s : State) (i : nat) : C := nth i s Cx.zero.

Arguments amp s i%_nat.

(** Bit position of a wire inside a basis index.  The subtraction
    truncates for a wire the device does not have; [execute] below
    rejects such an operation before anything is applied. *)
Definition pos (w : Wire) : nat := (n_wires - 1 - w)%nat.

Definition bit (i : nat) (w : Wire) : bool := Nat.testbit i (pos w).

Arguments bit i%_nat w%_nat.

Definition b2n (b : bool) : nat := if b then 1 else 0.

(** Basis index [i] with the bit of wire [w] forced to [b]. *)
Definition with_bit (i : nat) (w : Wire) (b : bool) : nat :=
  if b then Nat.setbit i (pos w) else Nat.clearbit i (pos w).

(** Modelled from the spec: the initial state of the simulator device,
    which is not part of the notebook; section 4.1 has [create] return
    |0...0>, amplitude 1 at index 0 and 0 elsewhere. *)
Definition create : State :=
  map (fun i => if Nat.eqb i 0 then Cx.one else Cx.zero) (seq 0 dim).

(** Modelled from the spec: the simulator's application of a single-wire
    gate, which is not part of the notebook; by section 4.1 the unitary
    acts as the identity on the other wires, by index-pair updates over
    the basis pairs that differ only in the bit of [w]. *)
Definition apply1 (U : Matrix) (w : Wire) (s : State) : State :=
  map (fun i =>
         let r := b2n (bit i w) in
         Cx.add (Cx.mul (mget U r 0) (amp s (with_bit i w false)))
                (Cx.mul (mget U r 1) (amp s (with_bit i w true))))
      (seq 0 dim).

(** Modelled from the spec: the simulator's application of a two-wire
    gate, which is not part of the notebook; by section 4.1 the unitary
    is embedded through the tensor structure, here contracted with the
    bits of wires [c] and [t]. *)
Definition apply2 (U : Matrix) (c t : Wire) (s : State) : State :=
  map (fun i =>
         let r := (2 * b2n (bit i c) + b2n (bit i t))%nat in
         let at_ (bc bt : bool) := amp s (with_bit (with_bit i c bc) t bt) in
         Cx.add
           (Cx.add (Cx.mul (mget U r 0) (at_ false false))
                   (Cx.mul (mget U r 1) (at_ false true)))
           (Cx.add (Cx.mul (mget U r 2) (at_ true false))
                   (Cx.mul (mget U r 3) (at_ true true))))
      (seq 0 dim).

Arguments apply1 U w%_nat s.
Arguments apply2 U (c t)%_nat s.

Definition apply (g : Gate) (s : State) : State :=
  match g with
  | Hadamard w => apply1 Mat.hadamard w s
  | RX t w => apply1 (Mat.rx t) w s
  | RY t w => apply1 (Mat.ry t) w s
  | RZ t w => apply1 (Mat.rz t) w s
  | Rot p t o w => apply1 (Mat.rot p t o) w s
  | CNOT c t => apply2 Mat.cnot c t s
  end.

(** A circuit is the ordered list of queued operations. *)
Definition Circuit : Type := list Gate.

Definition run (c : Circuit) (s : State) : State :=
  fold_left (fun st g => apply g st) c s.

(** Inner product <a|b>. *)
Fixpoint inner (a b : State) : C :=
  match a, b with
  | x :: a', y :: b' => Cx.add (Cx.mul (Cx.conj x) y) (inner a' b')
  | _, _ => Cx.zero
  end.

(** Sum of the squared moduli, and the 2-norm. *)
Definition norm2 (s : State) : R := fold_right (fun a acc => Cx.abs2 a + acc) 0 s.
Definition norm (s : State) : R := sqrt (norm2 s).

(** Modelled from the spec: the value of [qml.expval], computed by the
    library; section 4.4 gives <state|O|state> for a single-wire Pauli
    embedded at its wire, the real part being taken. *)
Definition expectation (o : Observable) (s : State) : R :=
  re (inner s (apply1 (Mat.pauli (obs_pauli o)) (obs_wire o) s)).


(* ================================================================== *)
(** ** Recording a circuit: the tape of queued operations *)
(* ================================================================== *)

(** Calling [qml.Hadamard(...)], [qml.RX(...)] and the like inside a
    quantum function appends the operation to the tape being recorded;
    indexing a weight vector out of range raises.  [Q A] is a computation
    that threads the tape and may raise. *)
Definition Q (A : Type) : Type := Circuit -> option (A * Circuit).

Definition ret {A} (a : A) : Q A := fun tape => Some (a, tape).

Definition bind {A B} (m : Q A) (k : A -> Q B) : Q B :=
  fun tape =>
    match m tape with
    | Some (a, tape') => k a tape'
    | None => None
    end.

Definition raise {A} : Q A := fun _ => None.

Declare Scope tape_scope.
Delimit Scope tape_scope with tape.
Notation "x <- m ;; k" := (bind m (fun x => k))
  (at level 61, m at next level, right associativity) : tape_scope.
Notation "m ;; k" := (bind m (fun _ => k))
  (at level 61, right associativity) : tape_scope.

(** Queue one operation. *)
Definition queue (g : Gate) : Q unit := fun tape => Some (tt, tape ++ [g]).

(** [w[i]]: raises when [i] is out of range. *)
Definition getitem (w : list R) (i : nat) : Q R :=
  match nth_error w i with
  | Some x => ret x
  | None => raise
  end.

Local Open Scope tape_scope.

(** [real(angles)]: the angles are unpacked into the three arguments of
    [qml.Rot], which takes exactly three. *)
Definition real (angles : list R) : Q unit :=
  queue (Hadamard 0) ;;
  match angles with
  | [phi; theta; omega] => queue (Rot phi theta omega 0)
  | _ => raise
  end.

Definition generator (w : list R) : Q unit :=
  queue (Hadamard 0) ;;
  w0 <- getitem w 0 ;; queue (RX w0 0) ;;
  w1 <- getitem w 1 ;; queue (RX w1 1) ;;
  w2 <- getitem w 2 ;; queue (RY w2 0) ;;
  w3 <- getitem w 3 ;; queue (RY w3 1) ;;
  w4 <- getitem w 4 ;; queue (RZ w4 0) ;;
  w5 <- getitem w 5 ;; queue (RZ w5 1) ;;
  queue (CNOT 0 1) ;;
  w6 <- getitem w 6 ;; queue (RX w6 0) ;;
  w7 <- getitem w 7 ;; queue (RY w7 0) ;;
  w8 <- getitem w 8 ;; queue (RZ w8 0).

Definition discriminator (w : list R) : Q unit :=
  queue (Hadamard 0) ;;
  w0 <- getitem w 0 ;; queue (RX w0 0) ;;
  w1 <- getitem w 1 ;; queue (RX w1 2) ;;
  w2 <- getitem w 2 ;; queue (RY w2 0) ;;
  w3 <- getitem w 3 ;; queue (RY w3 2) ;;
  w4 <- getitem w 4 ;; queue (RZ w4 0) ;;
  w5 <- getitem w 5 ;; queue (RZ w5 2) ;;
  queue (CNOT 0 2) ;;
  w6 <- getitem w 6 ;; queue (RX w6 2) ;;
  w7 <- getitem w 7 ;; queue (RY w7 2) ;;
  w8 <- getitem w 8 ;; queue (RZ w8 2).

(** *** The device *)

Definition wire_ok (w : Wire) : bool := Nat.ltb w n_wires.

(** Modelled from the spec: the device's wire check, which is not part
    of the notebook; by sections 3 and 7 a wire index must be below the
    number of wires.  The two wires of a ControlledNot must differ. *)
Definition gate_ok (g : Gate) : bool :=
  match g with
  | Hadamard w | RX _ w | RY _ w | RZ _ w | Rot _ _ _ w => wire_ok w
  | CNOT c t => wire_ok c && wire_ok t && negb (Nat.eqb c t)
  end.

(** Executing a recorded tape: every wire is checked, the tape is run on
    a fresh |000> and the observable is read. *)
Definition execute (tape : Circuit) (o : Observable) : option R :=
  if forallb gate_ok tape && wire_ok (obs_wire o)
  then Some (expectation o (run tape create))
  else None.

(** [@qml.qnode(dev)]: record the quantum function on an empty tape, then
    execute the tape on the device. *)
Definition qnode (body : Q unit) (o : Observable) : option R :=
  match body [] with
  | Some (_, tape) => execute tape o
  | None => None
  end.

Definition real_disc_circuit (phi theta omega : R) (disc_weights : list R)
  : option R :=
  qnode (real [phi; theta; omega] ;; discriminator disc_weights)
        (Obs PauliZ 2).

Definition gen_disc_circuit (gen_weights disc_weights : list R) : option R :=
  qnode (generator gen_weights ;; discriminator disc_weights)
        (Obs PauliZ 2).

Local Close Scope tape_scope.

(* ================================================================== *)
(** ** Cost functions *)
(* ================================================================== *)

(** The module-level names the cost functions read. *)
Record Globals : Type := mkGlobals {
  phi : R;
  theta : R;
  omega : R;
  gen_weights : list R;
  disc_weights : list R
}.

Definition set_gen_weights (G : Globals) (w : list R) : Globals :=
  mkGlobals (phi G) (theta G) (omega G) w (disc_weights G).

Definition set_disc_weights (G : Globals) (w : list R) : Globals :=
  mkGlobals (phi G) (theta G) (omega G) (gen_weights G) w.

Definition prob_real_true (G : Globals) (disc_weights : list R) : option R :=
  option_map (fun true_disc_output => (true_disc_output + 1) / 2)
             (real_disc_circuit (phi G) (theta G) (omega G) disc_weights).

Definition prob_fake_true (gen_weights disc_weights : list R) : option R :=
  option_map (fun fake_disc_output => (fake_disc_output + 1) / 2)
             (gen_disc_circuit gen_weights disc_weights).

(** [disc_cost(disc_weights)] reads the global [gen_weights]. *)
Definition disc_cost (G : Globals) (disc_weights : list R) : option R :=
  match prob_fake_true (gen_weights G) disc_weights,
        prob_real_true G disc_weights with
  | Some pf, Some pr => Some (pf - pr)
  | _, _ => None
  end.

(** [gen_cost(gen_weights)]: the parameter shadows the global of the same
    name; the global [disc_weights] is read. *)
Definition gen_cost (G : Globals) (gen_weights : list R) : option R :=
  option_map Ropp (prob_fake_true gen_weights (disc_weights G)).

(* ================================================================== *)
(** ** The optimiser and the two training phases *)
(* ================================================================== *)

(** The two trainable variables. *)
Inductive Var : Type := GenWeights | DiscWeights.

Definition read (v : Var) (G : Globals) : list R :=
  match v with
  | GenWeights => gen_weights G
  | DiscWeights => disc_weights G
  end.

Definition write (v : Var) (w : list R) (G : Globals) : Globals :=
  match v with
  | GenWeights => set_gen_weights G w
  | DiscWeights => set_disc_weights G w
  end.

(** [tf.keras.optimizers.SGD(0.4)]: the learning rate and the optimiser's
    own step counter. *)
Record Optimizer : Type := mkOptimizer {
  learning_rate : R;
  iterations : nat
}.

(** What the notebook prints. *)
Inductive Line : Type :=
| StepCost (step : nat) (cost_val : R)
| ProbRealReal (p : R)
| ProbFakeReal (p : R)
| DiscCost (c : R).

Record Session : Type := mkSession {
  globals : Globals;
  opt : Optimizer;
  stdout : list Line
}.

Definition print (l : Line) (s : Session) : Session :=
  mkSession (globals s) (opt s) (stdout s ++ [l]).

Declare Scope opt_scope.
Delimit Scope opt_scope with opt.
Notation "x <- m ;; k" :=
  (match m with Some x => k | None => None end)
  (at level 61, m at next level, right associativity) : opt_scope.

Local Open Scope opt_scope.

(** [for step in range(n): body]; an exception leaves the loop. *)
Definition for_range (n : nat) (body : nat -> Session -> option Session)
           (s : Session) : option Session :=
  fold_left (fun acc step => s' <- acc ;; body step s') (seq 0 n) (Some s).

(** [cost = lambda: disc_cost(disc_weights)] and
    [cost = lambda: gen_cost(gen_weights)]: the variable is read when the
    closure is called. *)
Definition cost_D (G : Globals) : option R := disc_cost G (disc_weights G).
Definition cost_G (G : Globals) : option R := gen_cost G (gen_weights G).

Section Training.

(** The derivative of a cost with respect to one variable is computed
    outside the notebook, by the libraries' differentiation; it is taken
    here as given. *)
Variable gradient : (list R -> option R) -> list R -> option (list R).

(** Modelled from the spec: the update of [tf.keras.optimizers.SGD],
    which is not part of the notebook; section 6 gives plain gradient
    descent, w <- w - lr * grad.  The shapes must agree. *)
Definition sgd_update (lr : R) (w g : list R) : option (list R) :=
  if Nat.eqb (length w) (length g)
  then Some (map (fun p => fst p - lr * snd p) (combine w g))
  else None.

(** The gradients of all listed variables are taken at the current
    values, then each variable is updated. *)
Fixpoint gradients (cost : Globals -> option R) (G : Globals)
         (var_list : list Var) : option (list (Var * list R)) :=
  match var_list with
  | [] => Some []
  | v :: vs =>
      g <- gradient (fun x => cost (write v x G)) (read v G) ;;
      rest <- gradients cost G vs ;;
      Some ((v, g) :: rest)
  end.

Fixpoint apply_gradients (lr : R) (gs : list (Var * list R)) (G : Globals)
  : option Globals :=
  match gs with
  | [] => Some G
  | (v, g) :: rest =>
      w <- sgd_update lr (read v G) g ;;
      apply_gradients lr rest (write v w G)
  end.

(** [opt.minimize(cost, var_list)]. *)
Definition minimize (cost : Globals -> option R) (var_list : list Var)
           (s : Session) : option Session :=
  gs <- gradients cost (globals s) var_list ;;
  G <- apply_gradients (learning_rate (opt s)) gs (globals s) ;;
  Some (mkSession G
                  (mkOptimizer (learning_rate (opt s)) (S (iterations (opt s))))
                  (stdout s)).

Definition step_D (step : nat) (s : Session) : option Session :=
  s1 <- minimize cost_D [DiscWeights] s ;;
  if Nat.eqb (step mod 5) 0
  then cost_val <- cost_D (globals s1) ;; Some (print (StepCost step cost_val) s1)
  else Some s1.

Definition step_G (step : nat) (s : Session) : option Session :=
  s1 <- minimize cost_G [GenWeights] s ;;
  if Nat.eqb (step mod 5) 0
  then cost_val <- cost_G (globals s1) ;; Some (print (StepCost step cost_val) s1)
  else Some s1.

Definition phase_D : Session -> option Session := for_range 50 step_D.
Definition phase_G : Session -> option Session := for_range 50 step_G.

(** The two prints between the loops. *)
Definition report_D (s : Session) : option Session :=
  pr <- prob_real_true (globals s) (disc_weights (globals s)) ;;
  pf <- prob_fake_true (gen_weights (globals s)) (disc_weights (globals s)) ;;
  Some (print (ProbFakeReal pf) (print (ProbRealReal pr) s)).

(** The two prints after the second loop. *)
Definition report_G (s : Session) : option Session :=
  pf <- prob_fake_true (gen_weights (globals s)) (disc_weights (globals s)) ;;
  dc <- disc_cost (globals s) (disc_weights (globals s)) ;;
  Some (print (DiscCost dc) (print (ProbFakeReal pf) s)).

(** The training cells of the notebook, in order. *)
Definition train (s : Session) : option Session :=
  s1 <- phase_D s ;;
  s2 <- report_D s1 ;;
  s3 <- phase_G s2 ;;
  report_G s3.

End Training.

Local Close Scope opt_scope.

(** *** Initial values *)

(** [np.random.normal(scale=..., size=(9,))]: the standard-normal draws
    [z] of the seeded generator are inputs, scaled here. *)
Definition normal (scale : R) (z : list R) : list R :=
  map (fun x => scale * x) z.

Definition eps : R := / 100.

(** [np.array([np.pi] + [0] * 8) + np.random.normal(scale=eps, size=(9,))]. *)
Definition init_gen_weights (z : list R) : list R :=
  map (fun p => fst p + snd p) (combine (PI :: repeat 0 8) (normal eps z)).

Definition init_disc_weights (z : list R) : list R := normal 1 z.

(** The state in which the first training cell starts: the fixed angles,
    the initial weights, [SGD(0.4)] with no step taken, nothing printed. *)
Definition init_session (z_gen z_disc : list R) : Session :=
  mkSession
    (mkGlobals (PI / 6) (PI / 2) (PI / 7)
               (init_gen_weights z_gen) (init_disc_weights z_disc))
    (mkOptimizer (4 / 10) 0)
    [].

(* ================================================================== *)
(** ** Notions used in the statements *)
(* ================================================================== *)

(** The columns of [U] are orthonormal. *)
Definition unitary2 (U : Matrix) : Prop :=
  Cx.abs2 (mget U 0 0) + Cx.abs2 (mget U 1 0) = 1 /\
  Cx.abs2 (mget U 0 1) + Cx.abs2 (mget U 1 1) = 1 /\
  Cx.add (Cx.mul (Cx.conj (mget U 0 0)) (mget U 0 1))
         (Cx.mul (Cx.conj (mget U 1 0)) (mget U 1 1)) = Cx.zero.

(** Real linear combination [a.u + b.v] of two states. *)
Definition lincomb (a : R) (u : State) (b : R) (v : State) : State :=
  map (fun p => Cx.add (Cx.scale a (fst p)) (Cx.scale b (snd p)))
      (combine u v).

(** The partner of basis index [i]: the index that differs from it only
    in the bit of wire [w]. *)
Definition flip_bit (i : nat) (w : Wire) : nat := Nat.lxor i (2 ^ pos w).

(** Pauli-Z on wire [w] written out on the amplitudes: the squared
    moduli, counted negatively where the bit of [w] is 1. *)
Definition signed_norm2 (w : Wire) (s : State) : R :=
  fold_right
    (fun i acc =>
       (if bit i w then - Cx.abs2 (amp s i) else Cx.abs2 (amp s i)) + acc)
    0 (seq 0 dim).

Arguments flip_bit i%_nat w%_nat.
Arguments signed_norm2 w%_nat s.

(** The tape a quantum function records, empty when it raises. *)
Definition tape_of (body : Q unit) : Circuit :=
  match body [] with
  | Some (_, tape) => tape
  | None => []
  end.

(** The wires an operation acts on. *)
Definition wires_of (g : Gate) : list Wire :=
  match g with
  | Hadamard w | RX _ w | RY _ w | RZ _ w | Rot _ _ _ w => [w]
  | CNOT c t => [c; t]
  end.

(** [w] with entry [i] replaced by [x]. *)
Fixpoint upd (w : list R) (i : nat) (x : R) : list R :=
  match w, i with
  | [], _ => []
  | _ :: w', O => x :: w'
  | y :: w', S i' => y :: upd w' i' x
  end.

(** A single-axis rotation with its angle replaced. *)
Definition set_angle (x : R) (g : Gate) : Gate :=
  match g with
  | RX _ w => RX x w
  | RY _ w => RY x w
  | RZ _ w => RZ x w
  | _ => g
  end.

Definition is_rotation (g : Gate) : bool :=
  match g with
  | RX _ _ | RY _ _ | RZ _ _ => true
  | _ => false
  end.

(** Circuit [c] with the angle of its [k]-th operation replaced by [x]. *)
Fixpoint retune (c : Circuit) (k : nat) (x : R) : Circuit :=
  match c, k with
  | [], _ => []
  | g :: c', O => set_angle x g :: c'
  | g :: c', S k' => g :: retune c' k' x
  end.

(** Position, inside [generator] or [discriminator], of the one rotation
    that carries weight [i]: a Hadamard comes first and the CNOT sits
    between the rotations of weights 5 and 6. *)
Definition weight_pos (i : nat) : nat :=
  if Nat.ltb i 6 then S i else S (S i).

(** The parameter-shift rule for a function of one angle: its derivative
    at [x] is (f (x + pi/2) - f (x - pi/2)) / 2. *)
Definition obeys_shift_rule (f : R -> R) : Prop :=
  forall x, derivable_pt_lim f x ((f (x + PI / 2) - f (x - PI / 2)) / 2).

(** Both weight vectors of a session have their nine entries. *)
Definition shapes_ok (s : Session) : Prop :=
  length (gen_weights (globals s)) = 9%nat /\
  length (disc_weights (globals s)) = 9%nat.

(** What the training loop needs of the differentiation: where the cost
    has a value on every vector of the variable's shape, the gradient
    exists and has that shape. *)
Definition gradient_defined
           (gradient : (list R -> option R) -> list R -> option (list R))
  : Prop :=
  forall f w,
    (forall w', length w' = length w -> f w' <> None) ->
    exists g, gradient f w = Some g /\ length g = length w.

(** Modelled from the spec: the differentiation of a cost, done by the
    libraries; section 4.5 computes each partial derivative by two
    shifted evaluations, (f (w_i + pi/2) - f (w_i - pi/2)) / 2. *)
Fixpoint shift_partials (f : list R -> option R) (w : list R)
         (idx : list nat) : option (list R) :=
  match idx with
  | [] => Some []
  | i :: rest =>
      match f (upd w i (nth i w 0 + PI / 2)),
            f (upd w i (nth i w 0 - PI / 2)),
            shift_partials f w rest with
      | Some a, Some b, Some g => Some ((a - b) / 2 :: g)
      | _, _, _ => None
      end
  end.

Definition shift_gradient (f : list R -> option R) (w : list R)
  : option (list R) :=
  shift_partials f w (seq 0 (length w)).

(** *** Reference values *)

(** The generator weights before the noise is added, and a discriminator
    vector. *)
Definition ref_gen_weights : list R := [PI; 0; 0; 0; 0; 0; 0; 0; 0].
Definition ref_disc_weights : list R := [0; 0; 0; 0; 0; 0; 0; 0; 0].

Definition ref_globals : Globals :=
  mkGlobals (PI / 6) (PI / 2) (PI / 7) ref_gen_weights ref_disc_weights.

(** The initial session for draws that are all zero. *)
Definition ref_session : Session :=
  init_session [0; 0; 0; 0; 0; 0; 0; 0; 0] [0; 0; 0; 0; 0; 0; 0; 0; 0].

(* ================================================================== *)
(** ** The Bloch-vector cell *)
(* ================================================================== *)

(** [obs = [qml.PauliX(0), qml.PauliY(0), qml.PauliZ(0)]]. *)
Definition obs : list Observable :=
  [Obs PauliX 0; Obs PauliY 0; Obs PauliZ 0].

(** A QNode that returns a list of expectation values: the tape is run
    once and every observable is read off the final state. *)
Definition execute_all (tape : Circuit) (os : list Observable)
  : option (list R) :=
  if forallb gate_ok tape && forallb (fun o => wire_ok (obs_wire o)) os
  then Some (map (fun o => expectation o (run tape create)) os)
  else None.

Definition qnode_all (body : Q unit) (os : list Observable)
  : option (list R) :=
  match body [] with
  | Some (_, tape) => execute_all tape os
  | None => None
  end.

Definition bloch_vector_real (angles : list R) : option (list R) :=
  qnode_all (real angles) obs.

Definition bloch_vector_generator (angles : list R) : option (list R) :=
  qnode_all (generator angles) obs.

(* ================================================================== *)
(** ** Further notions used in the statements *)
(* ================================================================== *)

(** A state multiplied by a complex number. *)
Definition cscale (z : C) (s : State) : State := map (Cx.mul z) s.

(** Wire [w] is still in |0>: every amplitude whose index has the bit of
    [w] set is zero. *)
Definition untouched (w : Wire) (s : State) : Prop :=
  forall i, (i < dim)%nat -> bit i w = true -> amp s i = Cx.zero.

Arguments untouched w%_nat s.

(** The step number a printed line carries, if it is a step line. *)
Definition line_step (l : Line) : option nat :=
  match l with
  | StepCost step _ => Some step
  | _ => None
  end.

(** The state of a session apart from what was printed. *)
Definition core (s : Session) : Globals * Optimizer := (globals s, opt s).

(** Operation [g] does not act on wire [w]. *)
Definition avoids (w : Wire) (g : Gate) : bool :=
  negb (existsb (Nat.eqb w) (wires_of g)).

Arguments avoids w%_nat g.

(** A rotation about Z on wire 0 moves past a gate that is on wire 2 or
    is the ControlledNot from wire 0 to wire 2. *)
Definition past_rz0 (g : Gate) : bool :=
  match g with
  | Hadamard w | RX _ w | RY _ w | RZ _ w | Rot _ _ _ w => Nat.eqb w 2
  | CNOT c t => Nat.eqb c 0 && Nat.eqb t 2
  end.

(** What training leaves alone: the fixed angles and the learning rate
    are the same in [s'] as in [s], and what [s] had printed is still the
    beginning of the output. *)
Definition frame (s s' : Session) : Prop :=
  phi (globals s') = phi (globals s) /\
  theta (globals s') = theta (globals s) /\
  omega (globals s') = omega (globals s) /\
  learning_rate (opt s') = learning_rate (opt s) /\
  exists out, stdout s' = stdout s ++ out.

(** The steps below [n] at which a loop prints: [step % 5 == 0]. *)
Definition printed_steps (n : nat) : list nat :=
  filter (fun step => Nat.eqb (step mod 5) 0) (seq 0 n).

(** What [k] iterations of a loop on variable [v] have done to session
    [s]: only [v] was written, with a vector of the same length; the
    optimiser counted [k] steps; the lines printed are those of the steps
    divisible by 5. *)
Definition trace (v : Var) (s : Session) (k : nat) (sk : Session) : Prop :=
  (exists w', length w' = length (read v (globals s)) /\
              globals sk = write v w' (globals s)) /\
  opt sk = mkOptimizer (learning_rate (opt s)) (iterations (opt s) + k) /\
  exists out, stdout sk = stdout s ++ out /\
              map line_step out = map Some (printed_steps k).

(** One step of gradient descent, entry by entry: [w'] is [w] moved
    against the gradient [g] by the learning rate. *)
Definition descent_step (lr : R) (w g w' : list R) : Prop :=
  length g = length w /\ length w' = length w /\
  forall i, (i < length w)%nat ->
            nth i w' 0 = nth i w 0 - lr * nth i g 0.

(** The probability the cost functions read off a final state: the
    Pauli-Z expectation on wire 2, moved from [-1, 1] to [0, 1]. *)
Definition prob_of_state (s : State) : R :=
  (expectation (Obs PauliZ 2) s + 1) / 2.

(* ================================================================== *)
(** ** The device's single precision *)
(* ================================================================== *)

(** Modelled from the spec: gate application as in section 4.1, but in
    the arithmetic of the notebook's device.  [qml.device('cirq.simulator',
    wires=3)] simulates with complex64 amplitudes: every real and
    imaginary part is a binary32 number and every arithmetic operation
    returns the binary32 number nearest to the exact result, ties going
    to the even one.  The gate matrices are the ones of section 4.2
    rounded entry by entry.  Overflow does not occur with amplitudes and
    is left out. *)
Module F32.

(** The largest integer not above [x]. *)
Definition floor (x : R) : Z := (up x - 1)%Z.

(** The binary exponent of a nonzero [x], not below that of the smallest
    normal number. *)
Definition exponent (x : R) : Z :=
  Z.max (floor (ln (Rabs x) / ln 2)) (-126).

(** The spacing of the binary32 numbers around [x]: 24 significant
    bits. *)
Definition quantum (x : R) : R := powerRZ 2 (exponent x - 23).

(** The integer nearest to [r], the even one at a tie. *)
Definition nearest_even (r : R) : Z :=
  let f := floor r in
  match total_order_T (r - IZR f) (/ 2) with
  | inleft (left _) => f
  | inleft (right _) => if Z.even f then f else (f + 1)%Z
  | inright _ => (f + 1)%Z
  end.

(** Rounding to binary32. *)
Definition rnd (x : R) : R :=
  match Req_dec_T x 0 with
  | left _ => 0
  | right _ => IZR (nearest_even (x / quantum x)) * quantum x
  end.

Definition round_c (z : C) : C := mkC (rnd (re z)) (rnd (im z)).

Definition add (a b : C) : C :=
  mkC (rnd (re a + re b)) (rnd (im a + im b)).

Definition mul (a b : C) : C :=
  mkC (rnd (rnd (re a * re b) - rnd (im a * im b)))
      (rnd (rnd (re a * im b) + rnd (im a * re b))).

(** A gate matrix as the device stores it. *)
Definition to32 (M : Matrix) : Matrix := map (map round_c) M.

Definition apply1 (U : Matrix) (w : Wire) (s : State) : State :=
  map (fun i =>
         let r := b2n (bit i w) in
         add (mul (mget U r 0) (amp s (with_bit i w false)))
             (mul (mget U r 1) (amp s (with_bit i w true))))
      (seq 0 dim).

Definition apply2 (U : Matrix) (c t : Wire) (s : State) : State :=
  map (fun i =>
         let r := (2 * b2n (bit i c) + b2n (bit i t))%nat in
         let at_ (bc bt : bool) := amp s (with_bit (with_bit i c bc) t bt) in
         add (add (mul (mget U r 0) (at_ false false))
                  (mul (mget U r 1) (at_ false true)))
             (add (mul (mget U r 2) (at_ true false))
                  (mul (mget U r 3) (at_ true true))))
      (seq 0 dim).

Definition apply (g : Gate) (s : State) : State :=
  match g with
  | Hadamard w => apply1 (to32 Mat.hadamard) w s
  | RX t w => apply1 (to32 (Mat.rx t)) w s
  | RY t w => apply1 (to32 (Mat.ry t)) w s
  | RZ t w => apply1 (to32 (Mat.rz t)) w s
  | Rot p t o w => apply1 (to32 (Mat.rot p t o)) w s
  | CNOT c t => apply2 (to32 Mat.cnot) c t s
  end.

Definition run (c : Circuit) (s : State) : State :=
  fold_left (fun st g => apply g st) c s.

(** The binary32 number nearest to 1 / sqrt 2, the Hadamard entry as the
    device stores it: 0.707106769... *)
Definition h : R := 11863283 / 16777216.

End F32.

(** The states the two QNodes measure: the discriminator's tape run
    after the real-data tape, or after the generator's, from |000>. *)
Definition final_real (G : Globals) (d : list R) : State :=
  run (tape_of (real [phi G; theta G; omega G]) ++ tape_of (discriminator d))
      create.

Definition final_fake (g d : list R) : State :=
  run (tape_of (generator g) ++ tape_of (discriminator d)) create.

(** Line [l] is the line printed at step [k] of a loop started in [s]:
    it carries the step number and the cost of the weights the loop
    holds once iteration [k] has been carried out. *)
Definition step_line_of (body : nat -> Session -> option Session)
           (cost : Globals -> option R) (s : Session) (l : Line) (k : nat)
  : Prop :=
  exists sk c, for_range (S k) body s = Some sk /\
               cost (globals sk) = Some c /\
               l = StepCost k c.

(* ================================================================== *)
(** ** Reasoning support *)
(* ================================================================== *)

Lemma Cx_eq_intro (a b : C) : re a = re b -> im a = im b -> a = b.
Proof. destruct a, b; simpl; intros -> ->; reflexivity. Qed.

Lemma abs2_nonneg (a : C) : 0 <= Cx.abs2 a.
Proof.
  unfold Cx.abs2.
  pose proof (Rle_0_sqr (re a)) as H1. pose proof (Rle_0_sqr (im a)) as H2.
  unfold Rsqr in *. lra.
Qed.

(** Evaluate the index bookkeeping and the complex arithmetic, leaving
    the real-number operations alone. *)
Ltac crunch :=
  cbv -[Rplus Rmult Ropp Rminus Rdiv Rinv IZR cos sin sqrt PI Rle Rlt Rge Rgt].

Ltac crunch_in H :=
  cbv -[Rplus Rmult Ropp Rminus Rdiv Rinv IZR cos sin sqrt PI Rle Rlt Rge Rgt] in H.

Lemma length_dim_inv (s : State) :
  length s = dim ->
  exists a0 a1 a2 a3 a4 a5 a6 a7, s = [a0; a1; a2; a3; a4; a5; a6; a7].
Proof.
  unfold dim, n_wires; simpl. intros H.
  do 8 (destruct s as [|? s]; [discriminate H|]).
  destruct s; [|discriminate H].
  repeat eexists.
Qed.

Lemma length_9_inv (w : list R) :
  length w = 9%nat ->
  exists w0 w1 w2 w3 w4 w5 w6 w7 w8, w = [w0; w1; w2; w3; w4; w5; w6; w7; w8].
Proof.
  intros H.
  do 9 (destruct w as [|? w]; [discriminate H|]).
  destruct w; [|discriminate H].
  repeat eexists.
Qed.

Lemma wire_cases (w : Wire) : (w < n_wires)%nat -> w = 0%nat \/ w = 1%nat \/ w = 2%nat.
Proof. unfold n_wires. lia. Qed.

(** Replace a state of the right length by its eight amplitudes. *)
Ltac explode_state H :=
  let a0 := fresh "a" in let a1 := fresh "a" in let a2 := fresh "a" in
  let a3 := fresh "a" in let a4 := fresh "a" in let a5 := fresh "a" in
  let a6 := fresh "a" in let a7 := fresh "a" in
  destruct (length_dim_inv _ H) as (a0 & a1 & a2 & a3 & a4 & a5 & a6 & a7 & ->);
  clear H.

Ltac split_amps := repeat match goal with a : C |- _ => destruct a end.

(** Evaluate the index bookkeeping only: matrix entries and complex
    operations stay folded. *)
Ltac index_crunch :=
  cbv -[Rplus Rmult Ropp Rminus Rdiv Rinv IZR cos sin sqrt PI Rle Rlt Rge Rgt
        mget Cx.add Cx.mul Cx.abs2 Cx.conj Cx.zero Cx.one].

Ltac explode_wire H :=
  destruct (wire_cases _ H) as [-> | [-> | ->]]; clear H.

Ltac explode_weights H :=
  let w0 := fresh "w" in let w1 := fresh "w" in let w2 := fresh "w" in
  let w3 := fresh "w" in let w4 := fresh "w" in let w5 := fresh "w" in
  let w6 := fresh "w" in let w7 := fresh "w" in let w8 := fresh "w" in
  destruct (length_9_inv _ H) as (w0 & w1 & w2 & w3 & w4 & w5 & w6 & w7 & w8 & ->);
  clear H.

Lemma apply_length (g : Gate) (s : State) : length (apply g s) = dim.
Proof.
  destruct g; unfold apply, apply1, apply2;
    rewrite length_map, length_seq; reflexivity.
Qed.

Lemma run_length (c : Circuit) (s : State) :
  length s = dim -> length (run c s) = dim.
Proof.
  revert s. induction c as [|g c IH]; intros s H; simpl; [exact H|].
  apply IH, apply_length.
Qed.

Lemma run_app (c1 c2 : Circuit) (s : State) :
  run (c1 ++ c2) s = run c2 (run c1 s).
Proof. unfold run. apply fold_left_app. Qed.

Lemma create_length : length create = dim.
Proof. reflexivity. Qed.

Lemma norm2_create : norm2 create = 1.
Proof. crunch. lra. Qed.

(** *** Unitary 2x2 matrices preserve the norm *)

Lemma unitary2_pair (p q r t : C) (a b : C) :
  Cx.abs2 p + Cx.abs2 r = 1 ->
  Cx.abs2 q + Cx.abs2 t = 1 ->
  Cx.add (Cx.mul (Cx.conj p) q) (Cx.mul (Cx.conj r) t) = Cx.zero ->
  Cx.abs2 (Cx.add (Cx.mul p a) (Cx.mul q b))
  + Cx.abs2 (Cx.add (Cx.mul r a) (Cx.mul t b))
  = Cx.abs2 a + Cx.abs2 b.
Proof.
  destruct p as [pr pi], q as [qr qi], r as [rr ri], t as [tr ti],
           a as [ar ai], b as [br bi].
  intros H1 H2 H3.
  injection H3 as Hre Him.
  crunch_in H1. crunch_in H2. crunch_in Hre. crunch_in Him. crunch.
  match goal with
  | |- ?L = _ =>
      replace L
        with ((pr * pr + pi * pi + (rr * rr + ri * ri)) * (ar * ar + ai * ai)
              + (qr * qr + qi * qi + (tr * tr + ti * ti)) * (br * br + bi * bi)
              + 2 * (pr * qr - - pi * qi + (rr * tr - - ri * ti))
                  * (ar * br + ai * bi)
              - 2 * (pr * qi + - pi * qr + (rr * ti + - ri * tr))
                  * (ar * bi - ai * br))
        by ring
  end.
  rewrite H1, H2, Hre, Him. ring.
Qed.

Lemma apply1_norm2 (U : Matrix) (w : Wire) (s : State) :
  unitary2 U -> (w < n_wires)%nat -> length s = dim ->
  norm2 (apply1 U w s) = norm2 s.
Proof.
  intros (H1 & H2 & H3) Hw Hs.
  explode_state Hs. explode_wire Hw; index_crunch.
  - pose proof (unitary2_pair _ _ _ _ a a3 H1 H2 H3).
    pose proof (unitary2_pair _ _ _ _ a0 a4 H1 H2 H3).
    pose proof (unitary2_pair _ _ _ _ a1 a5 H1 H2 H3).
    pose proof (unitary2_pair _ _ _ _ a2 a6 H1 H2 H3).
    lra.
  - pose proof (unitary2_pair _ _ _ _ a a1 H1 H2 H3).
    pose proof (unitary2_pair _ _ _ _ a0 a2 H1 H2 H3).
    pose proof (unitary2_pair _ _ _ _ a3 a5 H1 H2 H3).
    pose proof (unitary2_pair _ _ _ _ a4 a6 H1 H2 H3).
    lra.
  - pose proof (unitary2_pair _ _ _ _ a a0 H1 H2 H3).
    pose proof (unitary2_pair _ _ _ _ a1 a2 H1 H2 H3).
    pose proof (unitary2_pair _ _ _ _ a3 a4 H1 H2 H3).
    pose proof (unitary2_pair _ _ _ _ a5 a6 H1 H2 H3).
    lra.
Qed.

Ltac list_eq :=
  repeat (apply (f_equal2 (@cons C)); [apply (f_equal2 mkC); ring |]);
  reflexivity.

Lemma inv_sqrt2_sqr : / sqrt 2 * / sqrt 2 = / 2.
Proof.
  rewrite <- Rinv_mult, sqrt_sqrt by lra. reflexivity.
Qed.

Lemma unitary2_intro (U : Matrix) :
  Cx.abs2 (mget U 0 0) + Cx.abs2 (mget U 1 0) = 1 ->
  Cx.abs2 (mget U 0 1) + Cx.abs2 (mget U 1 1) = 1 ->
  re (Cx.add (Cx.mul (Cx.conj (mget U 0 0)) (mget U 0 1))
             (Cx.mul (Cx.conj (mget U 1 0)) (mget U 1 1))) = 0 ->
  im (Cx.add (Cx.mul (Cx.conj (mget U 0 0)) (mget U 0 1))
             (Cx.mul (Cx.conj (mget U 1 0)) (mget U 1 1))) = 0 ->
  unitary2 U.
Proof.
  intros H1 H2 H3 H4. repeat split; try assumption.
  apply Cx_eq_intro; assumption.
Qed.

Lemma hadamard_unitary : unitary2 Mat.hadamard.
Proof.
  pose proof inv_sqrt2_sqr as Hh.
  apply unitary2_intro; crunch; try ring; lra.
Qed.

Lemma sin2_cos2' (x : R) : cos x * cos x + sin x * sin x = 1.
Proof. pose proof (sin2_cos2 x) as H. unfold Rsqr in H. lra. Qed.

Lemma rx_unitary (t : R) : unitary2 (Mat.rx t).
Proof.
  pose proof (sin2_cos2' (t / 2)) as H.
  apply unitary2_intro; crunch; try ring; lra.
Qed.

Lemma ry_unitary (t : R) : unitary2 (Mat.ry t).
Proof.
  pose proof (sin2_cos2' (t / 2)) as H.
  apply unitary2_intro; crunch; try ring; lra.
Qed.

Lemma rz_unitary (t : R) : unitary2 (Mat.rz t).
Proof.
  pose proof (sin2_cos2' (t / 2)) as H.
  apply unitary2_intro; crunch; try ring; lra.
Qed.

(** Applying a product of matrices is applying the factors in turn. *)
Lemma apply1_mul2 (A B : Matrix) (w : Wire) (s : State) :
  (w < n_wires)%nat -> length s = dim ->
  apply1 (Mat.mul2 A B) w s = apply1 A w (apply1 B w s).
Proof.
  intros Hw Hs. explode_state Hs.
  assert (E : forall i j, (i < 2)%nat -> (j < 2)%nat ->
                          mget (Mat.mul2 A B) i j =
                          Cx.add (Cx.mul (mget A i 0) (mget B 0 j))
                                 (Cx.mul (mget A i 1) (mget B 1 j))).
  { intros [|[|i]] [|[|j]] Hi Hj; try lia; reflexivity. }
  explode_wire Hw; index_crunch; rewrite !E by lia;
    generalize (mget A 0 0) (mget A 0 1) (mget A 1 0) (mget A 1 1)
               (mget B 0 0) (mget B 0 1) (mget B 1 0) (mget B 1 1);
    intros; split_amps; crunch; list_eq.
Qed.

Lemma apply1_length (U : Matrix) (w : Wire) (s : State) :
  length (apply1 U w s) = dim.
Proof. unfold apply1. rewrite length_map, length_seq. reflexivity. Qed.

Lemma cnot_norm2 (c t : Wire) (s : State) :
  (c < n_wires)%nat -> (t < n_wires)%nat -> c <> t -> length s = dim ->
  norm2 (apply2 Mat.cnot c t s) = norm2 s.
Proof.
  intros Hc Ht Hne Hs. explode_state Hs.
  explode_wire Hc; explode_wire Ht; try congruence;
    split_amps; crunch; ring.
Qed.

Lemma gate_ok_wire (w : Wire) : wire_ok w = true -> (w < n_wires)%nat.
Proof. unfold wire_ok. apply Nat.ltb_lt. Qed.

(** Every operation the device accepts preserves the sum of the squared
    moduli. *)
Lemma apply_norm2 (g : Gate) (s : State) :
  gate_ok g = true -> length s = dim -> norm2 (apply g s) = norm2 s.
Proof.
  intros Hg Hs. destruct g; cbn [gate_ok] in Hg; cbn [apply].
  - apply apply1_norm2; auto using hadamard_unitary, gate_ok_wire.
  - apply apply1_norm2; auto using rx_unitary, gate_ok_wire.
  - apply apply1_norm2; auto using ry_unitary, gate_ok_wire.
  - apply apply1_norm2; auto using rz_unitary, gate_ok_wire.
  - apply gate_ok_wire in Hg. unfold Mat.rot.
    rewrite apply1_mul2 by auto using apply1_length.
    rewrite apply1_mul2 by auto using apply1_length.
    rewrite !apply1_norm2;
      auto using rz_unitary, ry_unitary, apply1_length.
  - apply andb_prop in Hg as [Hg Hne]. apply andb_prop in Hg as [Hc Ht].
    apply negb_true_iff, Nat.eqb_neq in Hne.
    apply cnot_norm2; auto using gate_ok_wire.
Qed.

Lemma run_norm2 (c : Circuit) (s : State) :
  forallb gate_ok c = true -> length s = dim ->
  norm2 (run c s) = norm2 s.
Proof.
  revert s. induction c as [|g c IH]; intros s Hc Hs; [reflexivity|].
  cbn [forallb] in Hc. apply andb_prop in Hc as [Hg Hc].
  cbn [run fold_left]. fold (run c (apply g s)).
  rewrite IH by auto using apply_length.
  apply apply_norm2; assumption.
Qed.

(* ================================================================== *)
(** ** The recorded circuits and the cost functions *)
(* ================================================================== *)

Lemma generator_ok (w : list R) :
  length w = 9%nat ->
  generator w [] = Some (tt, tape_of (generator w)) /\
  forallb gate_ok (tape_of (generator w)) = true.
Proof. intros H. explode_weights H. split; reflexivity. Qed.

Lemma discriminator_ok (w : list R) :
  length w = 9%nat ->
  discriminator w [] = Some (tt, tape_of (discriminator w)) /\
  forallb gate_ok (tape_of (discriminator w)) = true.
Proof. intros H. explode_weights H. split; reflexivity. Qed.

Lemma real_ok (p t o : R) :
  real [p; t; o] [] = Some (tt, tape_of (real [p; t; o])) /\
  forallb gate_ok (tape_of (real [p; t; o])) = true.
Proof. split; reflexivity. Qed.

Example generator_ref_tape :
  tape_of (generator ref_gen_weights)
  = [Hadamard 0; RX PI 0; RX 0 1; RY 0 0; RY 0 1; RZ 0 0; RZ 0 1;
     CNOT 0 1; RX 0 0; RY 0 0; RZ 0 0].
Proof. reflexivity. Qed.

Example discriminator_ref_tape :
  tape_of (discriminator ref_disc_weights)
  = [Hadamard 0; RX 0 0; RX 0 2; RY 0 0; RY 0 2; RZ 0 0; RZ 0 2;
     CNOT 0 2; RX 0 2; RY 0 2; RZ 0 2].
Proof. reflexivity. Qed.

Example real_ref_tape :
  tape_of (real [PI / 6; PI / 2; PI / 7])
  = [Hadamard 0; Rot (PI / 6) (PI / 2) (PI / 7) 0].
Proof. reflexivity. Qed.

(** A weight vector that is too short makes the recording raise, and so
    does a list of angles that is not a triple. *)
Example generator_short_raises : generator [PI; 0] [] = None.
Proof. reflexivity. Qed.

Example real_two_angles_raises : real [PI; 0] [] = None.
Proof. reflexivity. Qed.

Example gen_disc_circuit_short_raises :
  gen_disc_circuit [PI; 0] ref_disc_weights = None.
Proof. reflexivity. Qed.

(** The device has wires 0, 1 and 2 only. *)
Example execute_rejects_wire_3 :
  execute [Hadamard 3] (Obs PauliZ 2) = None.
Proof. reflexivity. Qed.

Example execute_rejects_equal_wires :
  execute [CNOT 1 1] (Obs PauliZ 2) = None.
Proof. reflexivity. Qed.

(** The value of the two QNodes: the recorded tapes are concatenated and
    run on |000>. *)
Lemma gen_disc_circuit_eq (g d : list R) :
  length g = 9%nat -> length d = 9%nat ->
  gen_disc_circuit g d =
  Some (expectation (Obs PauliZ 2)
          (run (tape_of (generator g) ++ tape_of (discriminator d)) create)).
Proof. intros Hg Hd. explode_weights Hg. explode_weights Hd. reflexivity. Qed.

Lemma real_disc_circuit_eq (p t o : R) (d : list R) :
  length d = 9%nat ->
  real_disc_circuit p t o d =
  Some (expectation (Obs PauliZ 2)
          (run (tape_of (real [p; t; o]) ++ tape_of (discriminator d)) create)).
Proof. intros Hd. explode_weights Hd. reflexivity. Qed.

(** C1: for a 9-element discriminator weight vector [d], with the global
    generator weights and the fixed angles, [disc_cost d] is
    P(real|fake) - P(real|real), where P(real|fake) is (e + 1) / 2 for e
    the Pauli-Z expectation on wire 2 after the generator circuit
    followed by the discriminator circuit, run from |000>, and
    P(real|real) is the same with the real-data circuit in place of the
    generator. *)
Theorem disc_cost_spec (G : Globals) (d : list R) :
  length (gen_weights G) = 9%nat -> length d = 9%nat ->
  exists cr cg cd : Circuit,
    real [phi G; theta G; omega G] [] = Some (tt, cr) /\
    generator (gen_weights G) [] = Some (tt, cg) /\
    discriminator d [] = Some (tt, cd) /\
    let p_fake := (expectation (Obs PauliZ 2) (run cd (run cg create)) + 1) / 2 in
    let p_real := (expectation (Obs PauliZ 2) (run cd (run cr create)) + 1) / 2 in
    prob_fake_true (gen_weights G) d = Some p_fake /\
    prob_real_true G d = Some p_real /\
    disc_cost G d = Some (p_fake - p_real).
Proof.
  intros Hg Hd.
  exists (tape_of (real [phi G; theta G; omega G])),
         (tape_of (generator (gen_weights G))),
         (tape_of (discriminator d)).
  split; [apply real_ok|].
  split; [apply generator_ok; exact Hg|].
  split; [apply discriminator_ok; exact Hd|].
  cbv zeta. unfold disc_cost, prob_fake_true, prob_real_true.
  rewrite gen_disc_circuit_eq, real_disc_circuit_eq by assumption.
  rewrite !run_app. cbn [option_map]. repeat split.
Qed.

Lemma disc_cost_spec_witness :
  length (gen_weights ref_globals) = 9%nat /\
  length ref_disc_weights = 9%nat /\
  exists c, disc_cost ref_globals ref_disc_weights = Some c.
Proof.
  split; [reflexivity|]. split; [reflexivity|].
  destruct (disc_cost_spec ref_globals ref_disc_weights eq_refl eq_refl)
    as (cr & cg & cd & _ & _ & _ & _ & _ & E).
  eexists. exact E.
Defined.

(** C2: for a 9-element generator weight vector [g], with the global
    discriminator weights, [gen_cost g] is -P(real|fake). *)
Theorem gen_cost_spec (G : Globals) (g : list R) :
  length g = 9%nat -> length (disc_weights G) = 9%nat ->
  exists cg cd : Circuit,
    generator g [] = Some (tt, cg) /\
    discriminator (disc_weights G) [] = Some (tt, cd) /\
    let p_fake := (expectation (Obs PauliZ 2) (run cd (run cg create)) + 1) / 2 in
    prob_fake_true g (disc_weights G) = Some p_fake /\
    gen_cost G g = Some (- p_fake).
Proof.
  intros Hg Hd.
  exists (tape_of (generator g)), (tape_of (discriminator (disc_weights G))).
  split; [apply generator_ok; exact Hg|].
  split; [apply discriminator_ok; exact Hd|].
  cbv zeta. unfold gen_cost, prob_fake_true.
  rewrite gen_disc_circuit_eq by assumption.
  rewrite !run_app. cbn [option_map]. split; reflexivity.
Qed.

Lemma gen_cost_spec_witness :
  length ref_gen_weights = 9%nat /\
  length (disc_weights ref_globals) = 9%nat /\
  exists c, gen_cost ref_globals ref_gen_weights = Some c.
Proof.
  split; [reflexivity|]. split; [reflexivity|].
  destruct (gen_cost_spec ref_globals ref_gen_weights eq_refl eq_refl)
    as (cg & cd & _ & _ & _ & E).
  eexists. exact E.
Defined.

(* ================================================================== *)
(** ** Unit norm *)
(* ================================================================== *)

Lemma generator_gates_ok (w : list R) :
  forallb gate_ok (tape_of (generator w)) = true.
Proof. do 9 (destruct w as [|? w]; [reflexivity|]). reflexivity. Qed.

Lemma discriminator_gates_ok (w : list R) :
  forallb gate_ok (tape_of (discriminator w)) = true.
Proof. do 9 (destruct w as [|? w]; [reflexivity|]). reflexivity. Qed.

Lemma run_unit_norm2 (c : Circuit) :
  forallb gate_ok c = true -> norm2 (run c create) = 1.
Proof.
  intros H. rewrite run_norm2 by auto using create_length.
  apply norm2_create.
Qed.

(** With exact amplitudes, any sequence of gates drawn from the real,
    generator and discriminator circuits, applied to |000>, gives an
    amplitude vector of 2-norm 1. *)
Lemma exact_gates_keep_unit_norm (p t o : R) (g d : list R) (gs : Circuit) :
  incl gs (tape_of (real [p; t; o]) ++ tape_of (generator g)
           ++ tape_of (discriminator d)) ->
  norm (run gs create) = 1.
Proof.
  intros Hin. unfold norm. rewrite run_unit_norm2; [apply sqrt_1|].
  apply forallb_forall. intros x Hx. apply Hin in Hx.
  assert (Hall : forallb gate_ok
                   (tape_of (real [p; t; o]) ++ tape_of (generator g)
                    ++ tape_of (discriminator d)) = true).
  { rewrite !forallb_app, generator_gates_ok, discriminator_gates_ok.
    reflexivity. }
  rewrite forallb_forall in Hall. apply Hall, Hx.
Qed.

(* ================================================================== *)
(** ** ControlledNot *)
(* ================================================================== *)



(* ================================================================== *)
(** ** Pauli-Z expectation *)
(* ================================================================== *)

Lemma expectation_Z_signed (w : Wire) (s : State) :
  (w < n_wires)%nat -> length s = dim ->
  expectation (Obs PauliZ w) s = signed_norm2 w s.
Proof.
  intros Hw Hs. explode_state Hs.
  explode_wire Hw; split_amps; crunch; ring.
Qed.

Lemma signed_norm2_bounds (w : Wire) (s : State) :
  (w < n_wires)%nat -> length s = dim ->
  - norm2 s <= signed_norm2 w s <= norm2 s.
Proof.
  intros Hw Hs. explode_state Hs.
  pose proof (abs2_nonneg a). pose proof (abs2_nonneg a0).
  pose proof (abs2_nonneg a1). pose proof (abs2_nonneg a2).
  pose proof (abs2_nonneg a3). pose proof (abs2_nonneg a4).
  pose proof (abs2_nonneg a5). pose proof (abs2_nonneg a6).
  explode_wire Hw; index_crunch; lra.
Qed.

Lemma norm2_nonneg (s : State) : 0 <= norm2 s.
Proof.
  unfold norm2. induction s as [|a s IH]; cbn [fold_right]; [lra|].
  pose proof (abs2_nonneg a). lra.
Qed.

Lemma norm_1_norm2 (s : State) : norm s = 1 -> norm2 s = 1.
Proof.
  unfold norm. intros H.
  rewrite <- (sqrt_sqrt (norm2 s)) by apply norm2_nonneg.
  rewrite H. ring.
Qed.

Lemma expectation_Z_bounds (w : Wire) (s : State) :
  (w < n_wires)%nat -> length s = dim -> norm2 s = 1 ->
  -1 <= expectation (Obs PauliZ w) s <= 1.
Proof.
  intros Hw Hs Hn. rewrite expectation_Z_signed by assumption.
  pose proof (signed_norm2_bounds w s Hw Hs). lra.
Qed.

(** C6: on a unit-norm state the Pauli-Z expectation on any wire lies in
    [-1, 1]; it is 1 on |000> and -1 on the state RotationX(pi) makes of
    |000> on that wire. *)
Theorem expectation_Z_range (w : Wire) :
  (w < n_wires)%nat ->
  (forall s : State, length s = dim -> norm s = 1 ->
     -1 <= expectation (Obs PauliZ w) s <= 1) /\
  expectation (Obs PauliZ w) create = 1 /\
  expectation (Obs PauliZ w) (apply (RX PI w) create) = -1.
Proof.
  intros Hw. split; [|split].
  - intros s Hs Hn. apply expectation_Z_bounds; auto using norm_1_norm2.
  - explode_wire Hw; crunch; ring.
  - pose proof cos_PI2 as Hc. pose proof sin_PI2 as Hsn.
    explode_wire Hw; crunch; rewrite Hc, Hsn; ring.
Qed.

Lemma norm_create : norm create = 1.
Proof. unfold norm. rewrite norm2_create. apply sqrt_1. Qed.

Lemma expectation_Z_range_witness :
  -1 <= expectation (Obs PauliZ 2) (apply (Hadamard 2) create) <= 1 /\
  expectation (Obs PauliZ 2) create = 1 /\
  expectation (Obs PauliZ 2) (apply (RX PI 2) create) = -1.
Proof.
  assert (H2 : (2 < n_wires)%nat) by (unfold n_wires; lia).
  destruct (expectation_Z_range 2%nat H2) as (Hrange & Hone & Hminus).
  split; [|split; assumption].
  apply Hrange; [reflexivity|].
  unfold norm.
  rewrite (apply_norm2 (Hadamard 2) create eq_refl eq_refl), norm2_create.
  apply sqrt_1.
Defined.

(* ================================================================== *)
(** ** The real-data circuit stays on wire 0 *)
(* ================================================================== *)

(** C10: [real] queues operations on wire 0 only, and after it every
    amplitude whose index has the bit of wire 1 or of wire 2 set is 0. *)
Theorem real_leaves_wires_1_2 (p t o : R) (i : nat) :
  (i < dim)%nat -> bit i 1 = true \/ bit i 2 = true ->
  (forall g, In g (tape_of (real [p; t; o])) -> wires_of g = [0%nat]) /\
  amp (run (tape_of (real [p; t; o])) create) i = Cx.zero.
Proof.
  intros Hi Hb. split.
  - intros g [<- | [<- | []]]; reflexivity.
  - unfold dim, n_wires in Hi. cbn in Hi.
    do 8 (destruct i as [|i]; [
      first [ destruct Hb as [Hb | Hb]; discriminate Hb
            | crunch; apply (f_equal2 mkC); ring ] |]).
    lia.
Qed.

Lemma real_leaves_wires_1_2_witness :
  amp (run (tape_of (real [PI / 6; PI / 2; PI / 7])) create) 1 = Cx.zero.
Proof.
  apply (real_leaves_wires_1_2 (PI / 6) (PI / 2) (PI / 7) 1%nat).
  - unfold dim, n_wires. cbn. lia.
  - right. reflexivity.
Defined.

(* ================================================================== *)
(** ** Ranges of the probabilities and of the costs *)
(* ================================================================== *)

Lemma qnode_value_range (c1 c2 : Circuit) :
  forallb gate_ok c1 = true -> forallb gate_ok c2 = true ->
  -1 <= expectation (Obs PauliZ 2) (run (c1 ++ c2) create) <= 1.
Proof.
  intros H1 H2.
  assert (H : forallb gate_ok (c1 ++ c2) = true)
    by (rewrite forallb_app, H1, H2; reflexivity).
  apply expectation_Z_bounds.
  - unfold n_wires. lia.
  - apply run_length, create_length.
  - apply run_unit_norm2, H.
Qed.

Lemma prob_fake_true_range (g d : list R) :
  length g = 9%nat -> length d = 9%nat ->
  exists p, prob_fake_true g d = Some p /\ 0 <= p <= 1.
Proof.
  intros Hg Hd. unfold prob_fake_true.
  rewrite gen_disc_circuit_eq by assumption. cbn [option_map].
  eexists. split; [reflexivity|].
  pose proof (qnode_value_range _ _ (generator_gates_ok g)
                                (discriminator_gates_ok d)).
  lra.
Qed.

Lemma prob_real_true_range (G : Globals) (d : list R) :
  length d = 9%nat ->
  exists p, prob_real_true G d = Some p /\ 0 <= p <= 1.
Proof.
  intros Hd. unfold prob_real_true.
  rewrite real_disc_circuit_eq by assumption. cbn [option_map].
  eexists. split; [reflexivity|].
  pose proof (qnode_value_range _ _
                (proj2 (real_ok (phi G) (theta G) (omega G)))
                (discriminator_gates_ok d)).
  lra.
Qed.


(* ================================================================== *)
(** ** The parameter-shift rule *)
(* ================================================================== *)

(** *** Gates are linear *)

Lemma amp_lincomb (a b : R) (u v : State) (j : nat) :
  length u = length v ->
  amp (lincomb a u b v) j
  = Cx.add (Cx.scale a (amp u j)) (Cx.scale b (amp v j)).
Proof.
  unfold amp, lincomb. revert v j.
  induction u as [|x u IH]; intros [|y v] j H; try discriminate H.
  - destruct j; cbn; apply Cx_eq_intro; cbn; ring.
  - destruct j as [|j]; cbn [combine map nth fst snd]; [reflexivity|].
    apply IH. injection H as H. exact H.
Qed.

Lemma lincomb_map {A} (a b : R) (f g : A -> C) (l : list A) :
  lincomb a (map f l) b (map g l)
  = map (fun i => Cx.add (Cx.scale a (f i)) (Cx.scale b (g i))) l.
Proof.
  unfold lincomb. induction l as [|x l IH]; [reflexivity|].
  cbn [map combine fst snd]. f_equal. exact IH.
Qed.

Lemma lincomb_length (a b : R) (u v : State) :
  length u = dim -> length v = dim -> length (lincomb a u b v) = dim.
Proof.
  intros Hu Hv. unfold lincomb.
  rewrite length_map, length_combine, Hu, Hv. apply Nat.min_id.
Qed.

Lemma cx_lin2 (a b : R) (p q x0 y0 x1 y1 : C) :
  Cx.add (Cx.mul p (Cx.add (Cx.scale a x0) (Cx.scale b y0)))
         (Cx.mul q (Cx.add (Cx.scale a x1) (Cx.scale b y1)))
  = Cx.add (Cx.scale a (Cx.add (Cx.mul p x0) (Cx.mul q x1)))
           (Cx.scale b (Cx.add (Cx.mul p y0) (Cx.mul q y1))).
Proof. split_amps. apply Cx_eq_intro; cbn; ring. Qed.

Lemma cx_lin4 (a b : R) (p q r t x0 y0 x1 y1 x2 y2 x3 y3 : C) :
  Cx.add
    (Cx.add (Cx.mul p (Cx.add (Cx.scale a x0) (Cx.scale b y0)))
            (Cx.mul q (Cx.add (Cx.scale a x1) (Cx.scale b y1))))
    (Cx.add (Cx.mul r (Cx.add (Cx.scale a x2) (Cx.scale b y2)))
            (Cx.mul t (Cx.add (Cx.scale a x3) (Cx.scale b y3))))
  = Cx.add
      (Cx.scale a (Cx.add (Cx.add (Cx.mul p x0) (Cx.mul q x1))
                          (Cx.add (Cx.mul r x2) (Cx.mul t x3))))
      (Cx.scale b (Cx.add (Cx.add (Cx.mul p y0) (Cx.mul q y1))
                          (Cx.add (Cx.mul r y2) (Cx.mul t y3)))).
Proof. split_amps. apply Cx_eq_intro; cbn; ring. Qed.

Lemma apply1_lincomb (U : Matrix) (w : Wire) (a b : R) (u v : State) :
  length u = length v ->
  apply1 U w (lincomb a u b v)
  = lincomb a (apply1 U w u) b (apply1 U w v).
Proof.
  intros H. unfold apply1. rewrite lincomb_map.
  apply map_ext. intros i. cbv zeta.
  rewrite !amp_lincomb by exact H. apply cx_lin2.
Qed.

Lemma apply2_lincomb (U : Matrix) (c t : Wire) (a b : R) (u v : State) :
  length u = length v ->
  apply2 U c t (lincomb a u b v)
  = lincomb a (apply2 U c t u) b (apply2 U c t v).
Proof.
  intros H. unfold apply2. rewrite lincomb_map.
  apply map_ext. intros i. cbv zeta.
  rewrite !amp_lincomb by exact H. apply cx_lin4.
Qed.

Lemma apply_lincomb (g : Gate) (a b : R) (u v : State) :
  length u = length v ->
  apply g (lincomb a u b v) = lincomb a (apply g u) b (apply g v).
Proof.
  intros H. destruct g; cbn [apply];
    auto using apply1_lincomb, apply2_lincomb.
Qed.

Lemma run_lincomb (c : Circuit) (a b : R) (u v : State) :
  length u = length v ->
  run c (lincomb a u b v) = lincomb a (run c u) b (run c v).
Proof.
  revert u v. induction c as [|g c IH]; intros u v H; [reflexivity|].
  cbn [run fold_left]. fold (run c (apply g (lincomb a u b v))).
  fold (run c (apply g u)). fold (run c (apply g v)).
  rewrite apply_lincomb by exact H.
  apply IH. rewrite !apply_length. reflexivity.
Qed.

(** *** A rotation is a combination of its values at angles 0 and pi *)

Lemma half_0 : 0 / 2 = 0.
Proof. lra. Qed.

Lemma rotation_lincomb (g : Gate) (x : R) (s : State) :
  is_rotation g = true -> gate_ok g = true -> length s = dim ->
  apply (set_angle x g) s
  = lincomb (cos (x / 2)) (apply (set_angle 0 g) s)
            (sin (x / 2)) (apply (set_angle PI g) s).
Proof.
  intros Hr Hg Hs. explode_state Hs.
  pose proof cos_PI2 as Hc. pose proof sin_PI2 as Hsn.
  pose proof cos_0 as Hc0. pose proof sin_0 as Hs0.
  destruct g; try discriminate Hr; cbn [gate_ok] in Hg;
    apply gate_ok_wire in Hg; explode_wire Hg; split_amps; crunch;
    rewrite half_0, Hc, Hsn, Hc0, Hs0; list_eq.
Qed.

Lemma retune_lincomb (c : Circuit) (k : nat) (g : Gate) (x : R) (s : State) :
  nth_error c k = Some g -> is_rotation g = true -> gate_ok g = true ->
  length s = dim ->
  run (retune c k x) s
  = lincomb (cos (x / 2)) (run (retune c k 0) s)
            (sin (x / 2)) (run (retune c k PI) s).
Proof.
  revert k s. induction c as [|h c IH]; intros [|k] s Hk Hr Hg Hs;
    try discriminate Hk.
  - injection Hk as ->. cbn [retune run fold_left].
    change (run c (apply (set_angle x g) s)
            = lincomb (cos (x / 2)) (run c (apply (set_angle 0 g) s))
                      (sin (x / 2)) (run c (apply (set_angle PI g) s))).
    rewrite (rotation_lincomb g x s Hr Hg Hs).
    apply run_lincomb. rewrite !apply_length. reflexivity.
  - cbn [retune run fold_left].
    change (run (retune c k x) (apply h s)
            = lincomb (cos (x / 2)) (run (retune c k 0) (apply h s))
                      (sin (x / 2)) (run (retune c k PI) (apply h s))).
    apply (IH k (apply h s) Hk Hr Hg), apply_length.
Qed.

(** *** The expectation is a quadratic form *)

Lemma expectation_lincomb (w : Wire) (a b : R) (u v : State) :
  (w < n_wires)%nat -> length u = dim -> length v = dim ->
  expectation (Obs PauliZ w) (lincomb a u b v)
  = a * a * expectation (Obs PauliZ w) u
    + b * b * expectation (Obs PauliZ w) v
    + a * b * (expectation (Obs PauliZ w) (lincomb 1 u 1 v)
               - expectation (Obs PauliZ w) u
               - expectation (Obs PauliZ w) v).
Proof.
  intros Hw Hu Hv. explode_state Hu. explode_state Hv.
  explode_wire Hw; split_amps; crunch; ring.
Qed.

(** *** Differentiating a + b cos x + c sin x *)

Lemma derivable_pt_lim_ext (f g : R -> R) (x l : R) :
  (forall y, f y = g y) -> derivable_pt_lim f x l -> derivable_pt_lim g x l.
Proof.
  intros E H eps Heps. destruct (H eps Heps) as [delta Hd].
  exists delta. intros h Hh Hlt. rewrite <- !E. apply Hd; assumption.
Qed.

Lemma trig_shift (a b c x : R) :
  derivable_pt_lim (fun y => a + b * cos y + c * sin y) x
    (((a + b * cos (x + PI / 2) + c * sin (x + PI / 2))
      - (a + b * cos (x - PI / 2) + c * sin (x - PI / 2))) / 2).
Proof.
  replace (((a + b * cos (x + PI / 2) + c * sin (x + PI / 2))
            - (a + b * cos (x - PI / 2) + c * sin (x - PI / 2))) / 2)
    with (0 + b * (- sin x) + c * cos x).
  2:{ rewrite cos_plus, sin_plus, cos_minus, sin_minus, cos_PI2, sin_PI2.
      field. }
  apply (derivable_pt_lim_ext
           (fct_cte a + mult_real_fct b cos + mult_real_fct c sin)%F).
  { intros y. reflexivity. }
  apply derivable_pt_lim_plus; [apply derivable_pt_lim_plus|].
  - apply derivable_pt_lim_const.
  - apply derivable_pt_lim_scal, derivable_pt_lim_cos.
  - apply derivable_pt_lim_scal, derivable_pt_lim_sin.
Qed.

Lemma half_angle (x : R) :
  cos (x / 2) * cos (x / 2) = (1 + cos x) / 2 /\
  sin (x / 2) * sin (x / 2) = (1 - cos x) / 2 /\
  cos (x / 2) * sin (x / 2) = sin x / 2.
Proof.
  pose proof (cos_2a (x / 2)) as Hc. pose proof (sin_2a (x / 2)) as Hs.
  pose proof (sin2_cos2' (x / 2)) as H1.
  replace (2 * (x / 2)) with x in Hc, Hs by field.
  repeat split; lra.
Qed.

(** A function of the form cos^2(x/2) A + sin^2(x/2) B + cos(x/2) sin(x/2) D
    obeys the shift rule. *)
Lemma quadratic_shift (f : R -> R) (A B D : R) :
  (forall x, f x = cos (x / 2) * cos (x / 2) * A
                   + sin (x / 2) * sin (x / 2) * B
                   + cos (x / 2) * sin (x / 2) * D) ->
  obeys_shift_rule f.
Proof.
  intros Hf x.
  assert (E : forall y, (A + B) / 2 + (A - B) / 2 * cos y + D / 2 * sin y = f y).
  { intros y. rewrite Hf. destruct (half_angle y) as (-> & -> & ->). field. }
  rewrite <- !E.
  apply (derivable_pt_lim_ext _ _ _ _ E), trig_shift.
Qed.

(** The shift rule for one rotation of a circuit run from |000>. *)
Lemma retune_shift (c : Circuit) (k : nat) (g : Gate) (w : Wire) :
  nth_error c k = Some g -> is_rotation g = true -> gate_ok g = true ->
  (w < n_wires)%nat ->
  obeys_shift_rule
    (fun y => expectation (Obs PauliZ w) (run (retune c k y) create)).
Proof.
  intros Hk Hr Hg Hw.
  apply (quadratic_shift
           (fun y => expectation (Obs PauliZ w) (run (retune c k y) create))
           (expectation (Obs PauliZ w) (run (retune c k 0) create))
           (expectation (Obs PauliZ w) (run (retune c k PI) create))
           (expectation (Obs PauliZ w)
              (lincomb 1 (run (retune c k 0) create)
                       1 (run (retune c k PI) create))
            - expectation (Obs PauliZ w) (run (retune c k 0) create)
            - expectation (Obs PauliZ w) (run (retune c k PI) create))).
  intros x.
  rewrite (retune_lincomb c k g x create Hk Hr Hg create_length).
  apply expectation_lincomb; auto using run_length, create_length.
Qed.

(** *** Each weight sits on one rotation *)

Lemma upd_length (w : list R) (i : nat) (x : R) :
  length (upd w i x) = length w.
Proof.
  revert i. induction w as [|y w IH]; intros [|i]; cbn; auto.
Qed.

Lemma generator_retune (g : list R) (i : nat) (x : R) :
  length g = 9%nat -> (i < 9)%nat ->
  tape_of (generator (upd g i x))
  = retune (tape_of (generator g)) (weight_pos i) x.
Proof.
  intros Hg Hi. explode_weights Hg. do 9 (destruct i as [|i]; [reflexivity|]). lia.
Qed.

Lemma discriminator_retune (d : list R) (i : nat) (x : R) :
  length d = 9%nat -> (i < 9)%nat ->
  tape_of (discriminator (upd d i x))
  = retune (tape_of (discriminator d)) (weight_pos i) x.
Proof.
  intros Hd Hi. explode_weights Hd. do 9 (destruct i as [|i]; [reflexivity|]). lia.
Qed.

Lemma generator_weight_gate (g : list R) (i : nat) :
  length g = 9%nat -> (i < 9)%nat ->
  exists r, nth_error (tape_of (generator g)) (weight_pos i) = Some r /\
            is_rotation r = true /\ gate_ok r = true.
Proof.
  intros Hg Hi. explode_weights Hg.
  do 9 (destruct i as [|i]; [eexists; repeat split; reflexivity|]). lia.
Qed.

Lemma discriminator_weight_gate (d : list R) (i : nat) :
  length d = 9%nat -> (i < 9)%nat ->
  exists r, nth_error (tape_of (discriminator d)) (weight_pos i) = Some r /\
            is_rotation r = true /\ gate_ok r = true.
Proof.
  intros Hd Hi. explode_weights Hd.
  do 9 (destruct i as [|i]; [eexists; repeat split; reflexivity|]). lia.
Qed.

Lemma retune_app_l (c1 c2 : Circuit) (k : nat) (x : R) :
  (k < length c1)%nat -> retune (c1 ++ c2) k x = retune c1 k x ++ c2.
Proof.
  revert k. induction c1 as [|g c1 IH]; intros k Hk; cbn in Hk; [lia|].
  destruct k as [|k]; cbn [retune app]; [reflexivity|].
  rewrite IH by lia. reflexivity.
Qed.

Lemma retune_app_r (c1 c2 : Circuit) (k : nat) (x : R) :
  retune (c1 ++ c2) (length c1 + k) x = c1 ++ retune c2 k x.
Proof.
  induction c1 as [|g c1 IH]; cbn [length Nat.add retune app]; [reflexivity|].
  rewrite IH. reflexivity.
Qed.

Lemma weight_pos_lt (i : nat) : (i < 9)%nat -> (weight_pos i < 11)%nat.
Proof.
  intros Hi. unfold weight_pos. destruct (Nat.ltb i 6); lia.
Qed.

Lemma generator_tape_length (g : list R) :
  length g = 9%nat -> length (tape_of (generator g)) = 11%nat.
Proof. intros Hg. explode_weights Hg. reflexivity. Qed.

Lemma real_tape_length (p t o : R) : length (tape_of (real [p; t; o])) = 2%nat.
Proof. reflexivity. Qed.



(* ================================================================== *)
(** ** The two training phases *)
(* ================================================================== *)

Lemma disc_cost_defined (G : Globals) (d : list R) :
  length (gen_weights G) = 9%nat -> length d = 9%nat ->
  exists c, disc_cost G d = Some c.
Proof.
  intros HG Hd.
  destruct (prob_real_true_range G d Hd) as (pr & Epr & _).
  destruct (prob_fake_true_range (gen_weights G) d HG Hd) as (pf & Epf & _).
  exists (pf - pr). unfold disc_cost. rewrite Epr, Epf. reflexivity.
Qed.

Lemma gen_cost_defined (G : Globals) (g : list R) :
  length g = 9%nat -> length (disc_weights G) = 9%nat ->
  exists c, gen_cost G g = Some c.
Proof.
  intros Hg HD.
  destruct (prob_fake_true_range g (disc_weights G) Hg HD) as (pf & Epf & _).
  exists (- pf). unfold gen_cost. rewrite Epf. reflexivity.
Qed.

Lemma for_range_S (n : nat) (body : nat -> Session -> option Session)
      (s : Session) :
  for_range (S n) body s
  = match for_range n body s with
    | Some s' => body n s'
    | None => None
    end.
Proof.
  unfold for_range. rewrite seq_S, fold_left_app. reflexivity.
Qed.

(** A loop invariant that every iteration re-establishes holds, with a
    result, after any number of iterations. *)
Lemma for_range_invariant (P : nat -> Session -> Prop)
      (body : nat -> Session -> option Session) (s : Session) (n : nat) :
  P 0%nat s ->
  (forall k sk, (k < n)%nat -> P k sk ->
                exists sk', body k sk = Some sk' /\ P (S k) sk') ->
  exists sn, for_range n body s = Some sn /\ P n sn.
Proof.
  intros H0 Hstep. induction n as [|n IH].
  - exists s. split; [reflexivity | exact H0].
  - destruct IH as (sn & En & Pn).
    { intros k sk Hk. apply Hstep. lia. }
    destruct (Hstep n sn (Nat.lt_succ_diag_r n) Pn) as (sn' & En' & Pn').
    exists sn'. rewrite for_range_S, En. split; assumption.
Qed.

Lemma sgd_update_length (lr : R) (w g : list R) :
  length g = length w ->
  exists w', sgd_update lr w g = Some w' /\ length w' = length w.
Proof.
  intros H. unfold sgd_update. rewrite H, Nat.eqb_refl.
  eexists. split; [reflexivity|].
  rewrite length_map, length_combine, H. apply Nat.min_id.
Qed.

Lemma cost_D_write (G : Globals) (x : list R) :
  cost_D (write DiscWeights x G) = disc_cost G x.
Proof. reflexivity. Qed.

Lemma cost_G_write (G : Globals) (x : list R) :
  cost_G (write GenWeights x G) = gen_cost G x.
Proof. reflexivity. Qed.

(** The parameter-shift gradient is defined wherever the cost is. *)
Lemma shift_partials_defined (f : list R -> option R) (w : list R)
      (idx : list nat) :
  (forall w', length w' = length w -> f w' <> None) ->
  exists g, shift_partials f w idx = Some g /\ length g = length idx.
Proof.
  intros Hf. induction idx as [|i idx (g & Eg & Lg)].
  - exists []. split; reflexivity.
  - cbn [shift_partials].
    destruct (f (upd w i (nth i w 0 + PI / 2))) as [a|] eqn:Ea;
      [|exfalso; revert Ea; apply Hf, upd_length].
    destruct (f (upd w i (nth i w 0 - PI / 2))) as [b|] eqn:Eb;
      [|exfalso; revert Eb; apply Hf, upd_length].
    rewrite Eg. eexists. split; [reflexivity|].
    cbn [length]. rewrite Lg. reflexivity.
Qed.

Lemma shift_gradient_defined : gradient_defined shift_gradient.
Proof.
  intros f w Hf. unfold shift_gradient.
  destruct (shift_partials_defined f w (seq 0 (length w)) Hf) as (g & Eg & Lg).
  exists g. split; [exact Eg|]. rewrite Lg. apply length_seq.
Qed.

Section TrainingFacts.

Variable gradient : (list R -> option R) -> list R -> option (list R).

(** Where the cost has a value on every vector of the variable's
    shape, its gradient exists and has that shape. *)
Hypothesis gradient_shape : gradient_defined gradient.

Lemma minimize_D (s : Session) :
  shapes_ok s ->
  exists s', minimize gradient cost_D [DiscWeights] s = Some s' /\
             shapes_ok s' /\
             gen_weights (globals s') = gen_weights (globals s) /\
             iterations (opt s') = S (iterations (opt s)) /\
             stdout s' = stdout s.
Proof.
  intros [HG HD]. unfold minimize. cbn [gradients].
  destruct (gradient_shape
              (fun x => cost_D (write DiscWeights x (globals s)))
              (read DiscWeights (globals s))) as (gr & -> & Lgr).
  { intros w' Lw'. cbn [read] in Lw'. rewrite cost_D_write.
    destruct (disc_cost_defined (globals s) w' HG) as (c & ->);
      [congruence | discriminate]. }
  cbn [apply_gradients].
  destruct (sgd_update_length (learning_rate (opt s))
              (read DiscWeights (globals s)) gr Lgr) as (w' & -> & Lw').
  eexists. split; [reflexivity|].
  cbn [globals opt stdout iterations write set_disc_weights
       gen_weights disc_weights read] in *.
  unfold shapes_ok, set_disc_weights. cbn [globals gen_weights disc_weights].
  repeat split; congruence.
Qed.

Lemma minimize_G (s : Session) :
  shapes_ok s ->
  exists s', minimize gradient cost_G [GenWeights] s = Some s' /\
             shapes_ok s' /\
             disc_weights (globals s') = disc_weights (globals s) /\
             iterations (opt s') = S (iterations (opt s)) /\
             stdout s' = stdout s.
Proof.
  intros [HG HD]. unfold minimize. cbn [gradients].
  destruct (gradient_shape
              (fun x => cost_G (write GenWeights x (globals s)))
              (read GenWeights (globals s))) as (gr & -> & Lgr).
  { intros w' Lw'. cbn [read] in Lw'. rewrite cost_G_write.
    destruct (gen_cost_defined (globals s) w') as (c & ->);
      [congruence | exact HD | discriminate]. }
  cbn [apply_gradients].
  destruct (sgd_update_length (learning_rate (opt s))
              (read GenWeights (globals s)) gr Lgr) as (w' & -> & Lw').
  eexists. split; [reflexivity|].
  cbn [globals opt stdout iterations write set_gen_weights
       gen_weights disc_weights read] in *.
  unfold shapes_ok, set_gen_weights. cbn [globals gen_weights disc_weights].
  repeat split; congruence.
Qed.

Lemma step_D_ok (step : nat) (s : Session) :
  shapes_ok s ->
  exists s', step_D gradient step s = Some s' /\
             shapes_ok s' /\
             gen_weights (globals s') = gen_weights (globals s) /\
             iterations (opt s') = S (iterations (opt s)).
Proof.
  intros Hs. unfold step_D.
  destruct (minimize_D s Hs) as (s1 & -> & Hs1 & Eg & Ei & _).
  destruct (Nat.eqb (step mod 5) 0).
  - destruct Hs1 as [HG HD].
    destruct (disc_cost_defined (globals s1) (disc_weights (globals s1)) HG HD)
      as (c & Ec).
    unfold cost_D. rewrite Ec. eexists. split; [reflexivity|].
    unfold print, shapes_ok. cbn [globals opt]. auto.
  - eexists. split; [reflexivity|]. auto.
Qed.

Lemma step_G_ok (step : nat) (s : Session) :
  shapes_ok s ->
  exists s', step_G gradient step s = Some s' /\
             shapes_ok s' /\
             disc_weights (globals s') = disc_weights (globals s) /\
             iterations (opt s') = S (iterations (opt s)).
Proof.
  intros Hs. unfold step_G.
  destruct (minimize_G s Hs) as (s1 & -> & Hs1 & Eg & Ei & _).
  destruct (Nat.eqb (step mod 5) 0).
  - destruct Hs1 as [HG HD].
    destruct (gen_cost_defined (globals s1) (gen_weights (globals s1)) HG HD)
      as (c & Ec).
    unfold cost_G. rewrite Ec. eexists. split; [reflexivity|].
    unfold print, shapes_ok. cbn [globals opt]. auto.
  - eexists. split; [reflexivity|]. auto.
Qed.

Lemma steps_D (s : Session) (k : nat) :
  shapes_ok s ->
  exists sk, for_range k (step_D gradient) s = Some sk /\
             shapes_ok sk /\
             gen_weights (globals sk) = gen_weights (globals s) /\
             iterations (opt sk) = (iterations (opt s) + k)%nat.
Proof.
  intros Hs.
  apply (for_range_invariant
           (fun k sk => shapes_ok sk /\
                        gen_weights (globals sk) = gen_weights (globals s) /\
                        iterations (opt sk) = (iterations (opt s) + k)%nat)).
  - repeat split; try apply Hs. lia.
  - intros j sj _ (Hj & Eg & Ei).
    destruct (step_D_ok j sj Hj) as (sj' & E & Hj' & Eg' & Ei').
    exists sj'. repeat split; try apply Hj'; try congruence. lia.
Qed.

Lemma steps_G (s : Session) (k : nat) :
  shapes_ok s ->
  exists sk, for_range k (step_G gradient) s = Some sk /\
             shapes_ok sk /\
             disc_weights (globals sk) = disc_weights (globals s) /\
             iterations (opt sk) = (iterations (opt s) + k)%nat.
Proof.
  intros Hs.
  apply (for_range_invariant
           (fun k sk => shapes_ok sk /\
                        disc_weights (globals sk) = disc_weights (globals s) /\
                        iterations (opt sk) = (iterations (opt s) + k)%nat)).
  - repeat split; try apply Hs. lia.
  - intros j sj _ (Hj & Eg & Ei).
    destruct (step_G_ok j sj Hj) as (sj' & E & Hj' & Eg' & Ei').
    exists sj'. repeat split; try apply Hj'; try congruence. lia.
Qed.

Lemma report_D_ok (s : Session) :
  shapes_ok s ->
  exists s', report_D s = Some s' /\ globals s' = globals s /\ opt s' = opt s.
Proof.
  intros [HG HD]. unfold report_D.
  destruct (prob_real_true_range (globals s) _ HD) as (pr & -> & _).
  destruct (prob_fake_true_range _ _ HG HD) as (pf & -> & _).
  eexists. split; [reflexivity|]. split; reflexivity.
Qed.

Lemma report_G_ok (s : Session) :
  shapes_ok s ->
  exists s', report_G s = Some s' /\ globals s' = globals s /\ opt s' = opt s.
Proof.
  intros [HG HD]. unfold report_G.
  destruct (prob_fake_true_range _ _ HG HD) as (pf & -> & _).
  destruct (disc_cost_defined (globals s) _ HG HD) as (dc & ->).
  eexists. split; [reflexivity|]. split; reflexivity.
Qed.

End TrainingFacts.


(* ================================================================== *)
(** ** When the QNodes and the costs have a value *)
(* ================================================================== *)

Lemma generator_short (g : list R) (tape : Circuit) :
  (length g < 9)%nat -> generator g tape = None.
Proof.
  intros H.
  do 9 (destruct g as [|? g]; [reflexivity|]).
  cbn [length] in H. lia.
Qed.

Lemma discriminator_short (d : list R) (tape : Circuit) :
  (length d < 9)%nat -> discriminator d tape = None.
Proof.
  intros H.
  do 9 (destruct d as [|? d]; [reflexivity|]).
  cbn [length] in H. lia.
Qed.

(** Entries beyond the ninth are never read. *)
Lemma generator_firstn (g : list R) (tape : Circuit) :
  generator g tape = generator (firstn 9 g) tape.
Proof. do 9 (destruct g as [|? g]; [reflexivity|]). reflexivity. Qed.

Lemma discriminator_firstn (d : list R) (tape : Circuit) :
  discriminator d tape = discriminator (firstn 9 d) tape.
Proof. do 9 (destruct d as [|? d]; [reflexivity|]). reflexivity. Qed.

Lemma gen_disc_circuit_firstn (g d : list R) :
  gen_disc_circuit g d = gen_disc_circuit (firstn 9 g) (firstn 9 d).
Proof.
  unfold gen_disc_circuit, qnode, bind.
  rewrite (generator_firstn g).
  destruct (generator (firstn 9 g) []) as [[[] tape]|]; [|reflexivity].
  rewrite (discriminator_firstn d). reflexivity.
Qed.

Lemma real_disc_circuit_firstn (p t o : R) (d : list R) :
  real_disc_circuit p t o d = real_disc_circuit p t o (firstn 9 d).
Proof.
  unfold real_disc_circuit, qnode, bind.
  destruct (real [p; t; o] []) as [[[] tape]|]; [|reflexivity].
  rewrite (discriminator_firstn d). reflexivity.
Qed.

Lemma firstn_9_length (w : list R) :
  (9 <= length w)%nat -> length (firstn 9 w) = 9%nat.
Proof. intros H. rewrite length_firstn. lia. Qed.

Lemma gen_disc_circuit_defined (g d : list R) :
  gen_disc_circuit g d <> None <-> (9 <= length g)%nat /\ (9 <= length d)%nat.
Proof.
  split.
  - intros H.
    destruct (le_lt_dec 9 (length g)) as [Hg|Hg].
    + destruct (le_lt_dec 9 (length d)) as [Hd|Hd]; [auto|].
      exfalso. apply H. unfold gen_disc_circuit, qnode, bind.
      destruct (generator g []) as [[[] tape]|]; [|reflexivity].
      rewrite (discriminator_short d tape Hd). reflexivity.
    + exfalso. apply H. unfold gen_disc_circuit, qnode, bind.
      rewrite (generator_short g [] Hg). reflexivity.
  - intros [Hg Hd]. rewrite gen_disc_circuit_firstn.
    rewrite gen_disc_circuit_eq by auto using firstn_9_length.
    discriminate.
Qed.

Lemma real_disc_circuit_defined (p t o : R) (d : list R) :
  real_disc_circuit p t o d <> None <-> (9 <= length d)%nat.
Proof.
  split.
  - intros H.
    destruct (le_lt_dec 9 (length d)) as [Hd|Hd]; [auto|].
    exfalso. apply H. unfold real_disc_circuit, qnode, bind.
    destruct (real [p; t; o] []) as [[[] tape]|]; [|reflexivity].
    rewrite (discriminator_short d tape Hd). reflexivity.
  - intros Hd. rewrite real_disc_circuit_firstn.
    rewrite real_disc_circuit_eq by auto using firstn_9_length.
    discriminate.
Qed.

Lemma option_map_defined {A B} (f : A -> B) (o : option A) :
  option_map f o <> None <-> o <> None.
Proof. destruct o; cbn; split; intros H; congruence. Qed.

(** X1: each QNode and each cost function returns a value exactly when
    every weight vector it reads has at least nine entries; with a
    shorter vector the indexing raises and no value is returned. *)
Theorem costs_defined_iff (G : Globals) (g d : list R) :
  (gen_disc_circuit g d <> None
   <-> (9 <= length g)%nat /\ (9 <= length d)%nat) /\
  (real_disc_circuit (phi G) (theta G) (omega G) d <> None
   <-> (9 <= length d)%nat) /\
  (prob_fake_true g d <> None
   <-> (9 <= length g)%nat /\ (9 <= length d)%nat) /\
  (prob_real_true G d <> None <-> (9 <= length d)%nat) /\
  (disc_cost G d <> None
   <-> (9 <= length (gen_weights G))%nat /\ (9 <= length d)%nat) /\
  (gen_cost G g <> None
   <-> (9 <= length g)%nat /\ (9 <= length (disc_weights G))%nat).
Proof.
  pose proof (gen_disc_circuit_defined g d) as H1.
  pose proof (real_disc_circuit_defined (phi G) (theta G) (omega G) d) as H2.
  pose proof (gen_disc_circuit_defined (gen_weights G) d) as H3.
  pose proof (gen_disc_circuit_defined g (disc_weights G)) as H4.
  split; [exact H1|]. split; [exact H2|].
  split; [unfold prob_fake_true; rewrite option_map_defined; exact H1|].
  split; [unfold prob_real_true; rewrite option_map_defined; exact H2|].
  split.
  - unfold disc_cost, prob_fake_true, prob_real_true.
    destruct (gen_disc_circuit (gen_weights G) d) as [e1|];
      [|cbn [option_map]; exact H3].
    destruct (real_disc_circuit (phi G) (theta G) (omega G) d) as [e2|];
      cbn [option_map].
    + split; [intros _; apply H3; discriminate | discriminate].
    + split; [intros H; exfalso; apply H; reflexivity|].
      intros [_ Hd]. apply H2, Hd.
  - unfold gen_cost, prob_fake_true. rewrite !option_map_defined. exact H4.
Qed.

(** X2: the QNodes and the cost functions read only the first nine
    entries of a weight vector; whatever follows is ignored. *)
Theorem only_first_nine_weights (G : Globals) (g d : list R) :
  gen_disc_circuit g d = gen_disc_circuit (firstn 9 g) (firstn 9 d) /\
  real_disc_circuit (phi G) (theta G) (omega G) d
  = real_disc_circuit (phi G) (theta G) (omega G) (firstn 9 d) /\
  disc_cost G d
  = disc_cost (set_gen_weights G (firstn 9 (gen_weights G))) (firstn 9 d) /\
  gen_cost G g
  = gen_cost (set_disc_weights G (firstn 9 (disc_weights G))) (firstn 9 g).
Proof.
  split; [apply gen_disc_circuit_firstn|].
  split; [apply real_disc_circuit_firstn|].
  split.
  - unfold disc_cost, prob_fake_true, prob_real_true, set_gen_weights.
    cbn [gen_weights phi theta omega].
    rewrite (gen_disc_circuit_firstn (gen_weights G) d).
    rewrite (real_disc_circuit_firstn _ _ _ d). reflexivity.
  - unfold gen_cost, prob_fake_true, set_disc_weights. cbn [disc_weights].
    rewrite (gen_disc_circuit_firstn g (disc_weights G)). reflexivity.
Qed.

(* ================================================================== *)
(** ** Wires a circuit does not act on *)
(* ================================================================== *)

Lemma untouched_create (w : Wire) : (w < n_wires)%nat -> untouched w create.
Proof.
  intros Hw i Hi Hb. unfold dim, n_wires in Hi. cbn in Hi.
  explode_wire Hw;
    do 8 (destruct i as [|i]; [first [discriminate Hb | reflexivity]|]); lia.
Qed.

(** The four amplitudes a wire in |0> forces to zero. *)
Lemma untouched_inv (w : Wire) (a0 a1 a2 a3 a4 a5 a6 a7 : C) :
  untouched w [a0; a1; a2; a3; a4; a5; a6; a7] ->
  forall i, (i < 8)%nat -> bit i w = true ->
            nth i [a0; a1; a2; a3; a4; a5; a6; a7] Cx.zero = Cx.zero.
Proof. intros H. exact H. Qed.

Ltac zero_amps H :=
  let Hz := fresh "Hz" in
  pose proof (untouched_inv _ _ _ _ _ _ _ _ _ H) as Hz; clear H;
  pose proof (Hz 0%nat ltac:(lia)); pose proof (Hz 1%nat ltac:(lia));
  pose proof (Hz 2%nat ltac:(lia)); pose proof (Hz 3%nat ltac:(lia));
  pose proof (Hz 4%nat ltac:(lia)); pose proof (Hz 5%nat ltac:(lia));
  pose proof (Hz 6%nat ltac:(lia)); pose proof (Hz 7%nat ltac:(lia));
  clear Hz;
  repeat match goal with
         | K : bit _ _ = true -> _ |- _ =>
             first [ specialize (K eq_refl); cbn [nth] in K; subst
                   | clear K ]
         end.

Ltac untouched_goal :=
  let i := fresh "i" in let Hi := fresh "Hi" in let Hb := fresh "Hb" in
  intros i Hi Hb; unfold dim, n_wires in Hi; cbn in Hi;
  do 8 (destruct i as [|i];
        [first [ discriminate Hb
               | crunch; apply (f_equal2 mkC); ring ] |]);
  lia.

Lemma cx_zero2 (u u' : C) :
  Cx.add (Cx.mul u Cx.zero) (Cx.mul u' Cx.zero) = Cx.zero.
Proof. destruct u, u'. crunch. apply (f_equal2 mkC); ring. Qed.

(** A single-wire gate on another wire keeps wire [w] in |0>, whatever
    its matrix. *)
Lemma apply1_untouched (U : Matrix) (w' w : Wire) (s : State) :
  (w' < n_wires)%nat -> (w < n_wires)%nat -> w <> w' -> length s = dim ->
  untouched w s -> untouched w (apply1 U w' s).
Proof.
  intros Hw' Hw Hne Hs H. explode_state Hs.
  explode_wire Hw'; explode_wire Hw; try congruence; zero_amps H;
    intros i Hi Hb; unfold dim, n_wires in Hi; cbn in Hi;
    do 8 (destruct i as [|i];
          [first [ discriminate Hb | index_crunch; apply cx_zero2 ] |]);
    lia.
Qed.

Lemma cnot_untouched (c t w : Wire) (s : State) :
  (c < n_wires)%nat -> (t < n_wires)%nat -> (w < n_wires)%nat ->
  w <> c -> w <> t -> length s = dim ->
  untouched w s -> untouched w (apply2 Mat.cnot c t s).
Proof.
  intros Hc Ht Hw Hwc Hwt Hs H. explode_state Hs.
  explode_wire Hc; explode_wire Ht; explode_wire Hw; try congruence;
    zero_amps H; split_amps; untouched_goal.
Qed.

Lemma avoids_1 (w w' : Wire) :
  negb (existsb (Nat.eqb w) [w']) = true -> w <> w'.
Proof.
  cbn. rewrite orb_false_r. intros H ->.
  rewrite Nat.eqb_refl in H. discriminate H.
Qed.

Lemma apply_untouched (g : Gate) (w : Wire) (s : State) :
  gate_ok g = true -> avoids w g = true -> (w < n_wires)%nat ->
  length s = dim -> untouched w s -> untouched w (apply g s).
Proof.
  intros Hg Ha Hw Hs H. unfold avoids in Ha.
  destruct g; cbn [gate_ok wires_of] in Hg, Ha; cbn [apply];
    try (apply apply1_untouched; auto using gate_ok_wire, avoids_1).
  apply andb_prop in Hg as [Hg _]. apply andb_prop in Hg as [Hc Ht].
  cbn [existsb] in Ha. rewrite orb_false_r in Ha.
  apply negb_true_iff, orb_false_elim in Ha as [Hwc Hwt].
  apply Nat.eqb_neq in Hwc, Hwt.
  apply cnot_untouched; auto using gate_ok_wire.
Qed.

Lemma run_untouched (c : Circuit) (w : Wire) (s : State) :
  forallb gate_ok c = true -> forallb (avoids w) c = true ->
  (w < n_wires)%nat -> length s = dim ->
  untouched w s -> untouched w (run c s).
Proof.
  revert s. induction c as [|g c IH]; intros s Hc Ha Hw Hs H; [exact H|].
  cbn [forallb] in Hc, Ha.
  apply andb_prop in Hc as [Hg Hc]. apply andb_prop in Ha as [Hag Ha].
  cbn [run fold_left]. fold (run c (apply g s)).
  apply IH; auto using apply_length, apply_untouched.
Qed.

Lemma generator_avoids_2 (g : list R) :
  forallb (avoids 2) (tape_of (generator g)) = true.
Proof. do 9 (destruct g as [|? g]; [reflexivity|]). reflexivity. Qed.

Lemma discriminator_avoids_1 (d : list R) :
  forallb (avoids 1) (tape_of (discriminator d)) = true.
Proof. do 9 (destruct d as [|? d]; [reflexivity|]). reflexivity. Qed.

(** X3: the generator never acts on wire 2 and the discriminator never
    acts on wire 1.  So the generator hands the discriminator its output
    wire still in |0>, and when the real data are classified the
    generator's workspace wire 1 stays in |0> to the end. *)
Theorem workspace_wires (p t o : R) (g d : list R) :
  forallb (avoids 2) (tape_of (generator g)) = true /\
  forallb (avoids 1) (tape_of (discriminator d)) = true /\
  untouched 2 (run (tape_of (generator g)) create) /\
  untouched 1 (run (tape_of (real [p; t; o]) ++ tape_of (discriminator d))
                   create).
Proof.
  pose proof (generator_avoids_2 g) as Hg.
  pose proof (discriminator_avoids_1 d) as Hd.
  assert (W1 : (1 < n_wires)%nat) by (unfold n_wires; lia).
  assert (W2 : (2 < n_wires)%nat) by (unfold n_wires; lia).
  split; [exact Hg|]. split; [exact Hd|]. split.
  - exact (run_untouched _ 2%nat create (generator_gates_ok g) Hg W2
             create_length (untouched_create 2%nat W2)).
  - assert (Hok : forallb gate_ok (tape_of (real [p; t; o])
                                     ++ tape_of (discriminator d)) = true)
      by (rewrite forallb_app, discriminator_gates_ok; reflexivity).
    assert (Hav : forallb (avoids 1) (tape_of (real [p; t; o])
                                       ++ tape_of (discriminator d)) = true)
      by (rewrite forallb_app, Hd; reflexivity).
    exact (run_untouched _ 1%nat create Hok Hav W1
             create_length (untouched_create 1%nat W1)).
Qed.

(* ================================================================== *)
(** ** Weights that cannot change a QNode's value *)
(* ================================================================== *)

(** *** A global phase *)

Lemma cx_mul_zero (z : C) : Cx.mul z Cx.zero = Cx.zero.
Proof. destruct z. crunch. apply (f_equal2 mkC); ring. Qed.

Lemma amp_cscale (z : C) (s : State) (j : nat) :
  amp (cscale z s) j = Cx.mul z (amp s j).
Proof.
  unfold amp, cscale. revert j.
  induction s as [|x s IH]; intros [|j]; cbn [map nth];
    auto using eq_sym, cx_mul_zero.
Qed.

Lemma cx_scale2 (z p q x y : C) :
  Cx.add (Cx.mul p (Cx.mul z x)) (Cx.mul q (Cx.mul z y))
  = Cx.mul z (Cx.add (Cx.mul p x) (Cx.mul q y)).
Proof. split_amps. apply Cx_eq_intro; cbn; ring. Qed.

Lemma cx_scale4 (z p q r t x0 x1 x2 x3 : C) :
  Cx.add (Cx.add (Cx.mul p (Cx.mul z x0)) (Cx.mul q (Cx.mul z x1)))
         (Cx.add (Cx.mul r (Cx.mul z x2)) (Cx.mul t (Cx.mul z x3)))
  = Cx.mul z (Cx.add (Cx.add (Cx.mul p x0) (Cx.mul q x1))
                     (Cx.add (Cx.mul r x2) (Cx.mul t x3))).
Proof. split_amps. apply Cx_eq_intro; cbn; ring. Qed.

Lemma cscale_map {A} (z : C) (f : A -> C) (l : list A) :
  cscale z (map f l) = map (fun i => Cx.mul z (f i)) l.
Proof. unfold cscale. apply map_map. Qed.

Lemma apply_cscale (g : Gate) (z : C) (s : State) :
  apply g (cscale z s) = cscale z (apply g s).
Proof.
  destruct g; cbn [apply]; unfold apply1, apply2;
    rewrite cscale_map; apply map_ext; intros i; cbv zeta;
    rewrite !amp_cscale; auto using cx_scale2, cx_scale4.
Qed.

Lemma run_cscale (c : Circuit) (z : C) (s : State) :
  run c (cscale z s) = cscale z (run c s).
Proof.
  revert s. induction c as [|g c IH]; intros s; [reflexivity|].
  cbn [run fold_left]. fold (run c (apply g (cscale z s))).
  fold (run c (apply g s)). rewrite apply_cscale. apply IH.
Qed.

Lemma expectation_cscale (o : Observable) (z : C) (s : State) :
  (obs_wire o < n_wires)%nat -> length s = dim ->
  expectation o (cscale z s) = Cx.abs2 z * expectation o s.
Proof.
  destruct o as [p w]. cbn [obs_wire]. intros Hw Hs. explode_state Hs.
  destruct p; explode_wire Hw; split_amps; crunch; ring.
Qed.

(** *** The generator's first weight *)

(** After the Hadamard wire 0 is in an eigenstate of X, so the rotation
    about X that follows only multiplies the state by a phase. *)
Lemma rx_after_hadamard (x : R) :
  apply (RX x 0) (apply (Hadamard 0) create)
  = cscale (Cx.mk (cos (x / 2)) (- sin (x / 2))) (apply (Hadamard 0) create).
Proof. crunch. list_eq. Qed.

Lemma phase_head (o : Observable) (x : R) (rest : Circuit) :
  (obs_wire o < n_wires)%nat ->
  expectation o (run (Hadamard 0 :: RX x 0 :: rest) create)
  = expectation o (run rest (apply (Hadamard 0) create)).
Proof.
  intros Hw. cbn [run fold_left].
  fold (run rest (apply (RX x 0) (apply (Hadamard 0) create))).
  rewrite rx_after_hadamard, run_cscale.
  rewrite expectation_cscale
    by auto using run_length, apply_length.
  replace (Cx.abs2 (Cx.mk (cos (x / 2)) (- sin (x / 2)))) with 1;
    [ring|].
  crunch. pose proof (sin2_cos2' (x / 2)). lra.
Qed.

Lemma firstn_upd (n i : nat) (w : list R) (x : R) :
  (i < n)%nat -> firstn n (upd w i x) = upd (firstn n w) i x.
Proof.
  revert i w. induction n as [|n IH]; intros i w Hi; [lia|].
  destruct w as [|y w]; [destruct i; reflexivity|].
  destruct i as [|i]; cbn [upd firstn]; [reflexivity|].
  rewrite IH by lia. reflexivity.
Qed.

Lemma gen_disc_circuit_short (g d : list R) :
  ~ ((9 <= length g)%nat /\ (9 <= length d)%nat) ->
  gen_disc_circuit g d = None.
Proof.
  intros H. destruct (gen_disc_circuit g d) as [e|] eqn:E; [|reflexivity].
  exfalso. apply H, gen_disc_circuit_defined. rewrite E. discriminate.
Qed.

Lemma real_disc_circuit_short (p t o : R) (d : list R) :
  ~ (9 <= length d)%nat -> real_disc_circuit p t o d = None.
Proof.
  intros H. destruct (real_disc_circuit p t o d) as [e|] eqn:E; [|reflexivity].
  exfalso. apply H, (real_disc_circuit_defined p t o). rewrite E. discriminate.
Qed.

Lemma generator_head (g : list R) :
  length g = 9%nat ->
  tape_of (generator g)
  = Hadamard 0 :: RX (nth 0 g 0) 0 :: skipn 2 (tape_of (generator g)).
Proof. intros Hg. explode_weights Hg. reflexivity. Qed.

Lemma generator_tail_upd0 (g : list R) (x : R) :
  length g = 9%nat ->
  skipn 2 (tape_of (generator (upd g 0 x))) = skipn 2 (tape_of (generator g)).
Proof. intros Hg. explode_weights Hg. reflexivity. Qed.

Lemma gen_disc_circuit_head (g d : list R) :
  length g = 9%nat -> length d = 9%nat ->
  gen_disc_circuit g d
  = Some (expectation (Obs PauliZ 2)
            (run (skipn 2 (tape_of (generator g)) ++ tape_of (discriminator d))
                 (apply (Hadamard 0) create))).
Proof.
  intros Hg Hd. rewrite gen_disc_circuit_eq by assumption.
  rewrite (generator_head g Hg). cbn [app].
  rewrite phase_head by (cbn; unfold n_wires; lia). reflexivity.
Qed.

Lemma gen_disc_circuit_upd0 (g d : list R) (x : R) :
  gen_disc_circuit (upd g 0 x) d = gen_disc_circuit g d.
Proof.
  destruct (le_lt_dec 9 (length g)) as [Hg|Hg];
    [destruct (le_lt_dec 9 (length d)) as [Hd|Hd]|].
  - rewrite (gen_disc_circuit_firstn (upd g 0 x)), (gen_disc_circuit_firstn g).
    rewrite firstn_upd by lia.
    rewrite !gen_disc_circuit_head
      by (rewrite ?upd_length; auto using firstn_9_length).
    rewrite generator_tail_upd0 by auto using firstn_9_length.
    reflexivity.
  - rewrite !gen_disc_circuit_short by (rewrite ?upd_length; lia).
    reflexivity.
  - rewrite !gen_disc_circuit_short by (rewrite ?upd_length; lia).
    reflexivity.
Qed.

(** X4: the generator's first weight has no effect.  It turns wire 0
    about X right after the Hadamard, which only multiplies the state by
    a phase, so the QNode value, the probability and both costs are the
    same for every value of that weight. *)
Theorem first_generator_weight_dead (G : Globals) (g d : list R) (x : R) :
  gen_disc_circuit (upd g 0 x) d = gen_disc_circuit g d /\
  prob_fake_true (upd g 0 x) d = prob_fake_true g d /\
  gen_cost G (upd g 0 x) = gen_cost G g /\
  disc_cost (set_gen_weights G (upd (gen_weights G) 0 x)) d = disc_cost G d.
Proof.
  split; [apply gen_disc_circuit_upd0|].
  split; [unfold prob_fake_true; rewrite gen_disc_circuit_upd0; reflexivity|].
  split.
  - unfold gen_cost, prob_fake_true. rewrite gen_disc_circuit_upd0. reflexivity.
  - unfold disc_cost, prob_fake_true, prob_real_true, set_gen_weights.
    cbn [gen_weights phi theta omega].
    rewrite gen_disc_circuit_upd0. reflexivity.
Qed.

(** *** The discriminator's weights 4 and 8 *)

(** A rotation about Z only changes the phases of the amplitudes, and
    Pauli-Z does not see them. *)
Lemma rz_keeps_Z (w w' : Wire) (x : R) (s : State) :
  (w < n_wires)%nat -> (w' < n_wires)%nat -> length s = dim ->
  expectation (Obs PauliZ w) (apply (RZ x w') s)
  = expectation (Obs PauliZ w) s.
Proof.
  intros Hw Hw' Hs. explode_state Hs.
  explode_wire Hw; explode_wire Hw'; split_amps; crunch;
    generalize (sin2_cos2' (x / 2));
    generalize (cos (x / 2)), (sin (x / 2)); intros c s Hcs;
    match goal with
    | |- ?L = ?Rr => replace L with ((c * c + s * s) * Rr) by ring
    end;
    rewrite Hcs; ring.
Qed.

(** Single-wire gates on different wires commute. *)
Lemma apply1_commute (U V : Matrix) (w w' : Wire) (s : State) :
  (w < n_wires)%nat -> (w' < n_wires)%nat -> w <> w' -> length s = dim ->
  apply1 U w (apply1 V w' s) = apply1 V w' (apply1 U w s).
Proof.
  intros Hw Hw' Hne Hs. explode_state Hs.
  explode_wire Hw; explode_wire Hw'; try congruence; index_crunch;
    generalize (mget U 0 0) (mget U 0 1) (mget U 1 0) (mget U 1 1)
               (mget V 0 0) (mget V 0 1) (mget V 1 0) (mget V 1 1);
    intros; split_amps; crunch; list_eq.
Qed.

(** A rotation about Z on the control wire commutes with ControlledNot. *)
Lemma rz_control_commute (c t : Wire) (x : R) (s : State) :
  (c < n_wires)%nat -> (t < n_wires)%nat -> c <> t -> length s = dim ->
  apply (RZ x c) (apply (CNOT c t) s) = apply (CNOT c t) (apply (RZ x c) s).
Proof.
  intros Hc Ht Hne Hs. explode_state Hs.
  explode_wire Hc; explode_wire Ht; try congruence;
    split_amps; crunch; list_eq.
Qed.

Lemma rz0_past (g : Gate) (x : R) (s : State) :
  past_rz0 g = true -> length s = dim ->
  apply (RZ x 0) (apply g s) = apply g (apply (RZ x 0) s).
Proof.
  intros Hg Hs.
  assert (W0 : (0 < n_wires)%nat) by (unfold n_wires; lia).
  assert (W2 : (2 < n_wires)%nat) by (unfold n_wires; lia).
  assert (Hne : 0%nat <> 2%nat) by discriminate.
  destruct g; cbn [past_rz0] in Hg; cbn [apply];
    try (apply Nat.eqb_eq in Hg; subst;
         exact (apply1_commute _ _ 0%nat 2%nat s W0 W2 Hne Hs)).
  apply andb_prop in Hg as [Hc Ht].
  apply Nat.eqb_eq in Hc, Ht. subst.
  exact (rz_control_commute 0%nat 2%nat x s W0 W2 Hne Hs).
Qed.

Lemma rz0_past_run (c : Circuit) (x : R) (s : State) :
  forallb past_rz0 c = true -> length s = dim ->
  run c (apply (RZ x 0) s) = apply (RZ x 0) (run c s).
Proof.
  revert s. induction c as [|g c IH]; intros s Hc Hs; [reflexivity|].
  cbn [forallb] in Hc. apply andb_prop in Hc as [Hg Hc].
  cbn [run fold_left]. fold (run c (apply g (apply (RZ x 0) s))).
  fold (run c (apply g s)).
  rewrite <- (rz0_past g x s Hg Hs).
  apply IH; auto using apply_length.
Qed.

Lemma discriminator_split4 (d : list R) :
  length d = 9%nat ->
  tape_of (discriminator d)
  = firstn 5 (tape_of (discriminator d))
    ++ RZ (nth 4 d 0) 0 :: skipn 6 (tape_of (discriminator d)) /\
  forallb past_rz0 (skipn 6 (tape_of (discriminator d))) = true.
Proof. intros Hd. explode_weights Hd. split; reflexivity. Qed.

Lemma discriminator_split8 (d : list R) :
  length d = 9%nat ->
  tape_of (discriminator d)
  = firstn 10 (tape_of (discriminator d)) ++ [RZ (nth 8 d 0) 2].
Proof. intros Hd. explode_weights Hd. reflexivity. Qed.

Lemma discriminator_upd4 (d : list R) (x : R) :
  length d = 9%nat ->
  firstn 5 (tape_of (discriminator (upd d 4 x)))
  = firstn 5 (tape_of (discriminator d)) /\
  skipn 6 (tape_of (discriminator (upd d 4 x)))
  = skipn 6 (tape_of (discriminator d)).
Proof. intros Hd. explode_weights Hd. split; reflexivity. Qed.

Lemma discriminator_upd8 (d : list R) (x : R) :
  length d = 9%nat ->
  firstn 10 (tape_of (discriminator (upd d 8 x)))
  = firstn 10 (tape_of (discriminator d)).
Proof. intros Hd. explode_weights Hd. reflexivity. Qed.

(** The value read on wire 2 does not need the rotation of weight 4. *)
Lemma value_without_4 (c0 : Circuit) (d : list R) :
  length d = 9%nat ->
  expectation (Obs PauliZ 2) (run (c0 ++ tape_of (discriminator d)) create)
  = expectation (Obs PauliZ 2)
      (run (skipn 6 (tape_of (discriminator d)))
           (run (c0 ++ firstn 5 (tape_of (discriminator d))) create)).
Proof.
  intros Hd. destruct (discriminator_split4 d Hd) as [E Hpast].
  rewrite E at 1. rewrite app_assoc, run_app.
  cbn [run fold_left].
  fold (run (c0 ++ firstn 5 (tape_of (discriminator d))) create).
  fold (run (skipn 6 (tape_of (discriminator d)))
            (apply (RZ (nth 4 d 0) 0)
                   (run (c0 ++ firstn 5 (tape_of (discriminator d))) create))).
  rewrite rz0_past_run by auto using run_length, create_length.
  apply rz_keeps_Z; auto using run_length, create_length;
    unfold n_wires; lia.
Qed.

(** Nor the rotation of weight 8. *)
Lemma value_without_8 (c0 : Circuit) (d : list R) :
  length d = 9%nat ->
  expectation (Obs PauliZ 2) (run (c0 ++ tape_of (discriminator d)) create)
  = expectation (Obs PauliZ 2)
      (run (c0 ++ firstn 10 (tape_of (discriminator d))) create).
Proof.
  intros Hd. rewrite (discriminator_split8 d Hd) at 1.
  rewrite app_assoc, run_app. cbn [run fold_left].
  fold (run (c0 ++ firstn 10 (tape_of (discriminator d))) create).
  apply rz_keeps_Z; auto using run_length, create_length;
    unfold n_wires; lia.
Qed.

Lemma dead_disc_weight_9 (c0 : Circuit) (d : list R) (i : nat) (x : R) :
  length d = 9%nat -> i = 4%nat \/ i = 8%nat ->
  expectation (Obs PauliZ 2)
    (run (c0 ++ tape_of (discriminator (upd d i x))) create)
  = expectation (Obs PauliZ 2)
      (run (c0 ++ tape_of (discriminator d)) create).
Proof.
  intros Hd [-> | ->].
  - rewrite (value_without_4 c0 (upd d 4 x)) by (rewrite upd_length; exact Hd).
    rewrite (value_without_4 c0 d Hd).
    destruct (discriminator_upd4 d x Hd) as [-> ->]. reflexivity.
  - rewrite (value_without_8 c0 (upd d 8 x)) by (rewrite upd_length; exact Hd).
    rewrite (value_without_8 c0 d Hd).
    rewrite (discriminator_upd8 d x Hd). reflexivity.
Qed.

Lemma gen_disc_circuit_dead (g d : list R) (i : nat) (x : R) :
  i = 4%nat \/ i = 8%nat ->
  gen_disc_circuit g (upd d i x) = gen_disc_circuit g d.
Proof.
  intros Hi.
  destruct (le_lt_dec 9 (length g)) as [Hg|Hg];
    [destruct (le_lt_dec 9 (length d)) as [Hd|Hd]|].
  - rewrite (gen_disc_circuit_firstn g (upd d i x)),
            (gen_disc_circuit_firstn g d).
    rewrite firstn_upd by lia.
    rewrite !gen_disc_circuit_eq
      by (rewrite ?upd_length; auto using firstn_9_length).
    rewrite dead_disc_weight_9 by auto using firstn_9_length.
    reflexivity.
  - rewrite !gen_disc_circuit_short by (rewrite ?upd_length; lia).
    reflexivity.
  - rewrite !gen_disc_circuit_short by (rewrite ?upd_length; lia).
    reflexivity.
Qed.

Lemma real_disc_circuit_dead (p t o : R) (d : list R) (i : nat) (x : R) :
  i = 4%nat \/ i = 8%nat ->
  real_disc_circuit p t o (upd d i x) = real_disc_circuit p t o d.
Proof.
  intros Hi.
  destruct (le_lt_dec 9 (length d)) as [Hd|Hd].
  - rewrite (real_disc_circuit_firstn p t o (upd d i x)),
            (real_disc_circuit_firstn p t o d).
    rewrite firstn_upd by lia.
    rewrite !real_disc_circuit_eq
      by (rewrite ?upd_length; auto using firstn_9_length).
    rewrite dead_disc_weight_9 by auto using firstn_9_length.
    reflexivity.
  - rewrite !real_disc_circuit_short by (rewrite ?upd_length; lia).
    reflexivity.
Qed.

(** X5: the discriminator's weights 4 and 8 have no effect.  Both turn a
    wire about Z: weight 8 on the measured wire just before Pauli-Z is
    read, weight 4 on wire 0 where only the control of the ControlledNot
    follows.  Both QNodes, both probabilities and both costs are the same
    for every value of these two weights. *)
Theorem discriminator_weights_4_8_dead (G : Globals) (g d : list R) (x : R) :
  Forall
    (fun i =>
       gen_disc_circuit g (upd d i x) = gen_disc_circuit g d /\
       real_disc_circuit (phi G) (theta G) (omega G) (upd d i x)
       = real_disc_circuit (phi G) (theta G) (omega G) d /\
       prob_fake_true g (upd d i x) = prob_fake_true g d /\
       prob_real_true G (upd d i x) = prob_real_true G d /\
       disc_cost G (upd d i x) = disc_cost G d /\
       gen_cost (set_disc_weights G (upd (disc_weights G) i x)) g
       = gen_cost G g)
    [4%nat; 8%nat].
Proof.
  assert (H : forall i, i = 4%nat \/ i = 8%nat ->
    gen_disc_circuit g (upd d i x) = gen_disc_circuit g d /\
    real_disc_circuit (phi G) (theta G) (omega G) (upd d i x)
    = real_disc_circuit (phi G) (theta G) (omega G) d /\
    prob_fake_true g (upd d i x) = prob_fake_true g d /\
    prob_real_true G (upd d i x) = prob_real_true G d /\
    disc_cost G (upd d i x) = disc_cost G d /\
    gen_cost (set_disc_weights G (upd (disc_weights G) i x)) g
    = gen_cost G g).
  { intros i Hi.
    unfold disc_cost, gen_cost, prob_fake_true, prob_real_true,
           set_disc_weights.
    cbn [gen_weights disc_weights phi theta omega].
    rewrite !gen_disc_circuit_dead, !real_disc_circuit_dead by exact Hi.
    repeat split. }
  repeat constructor; apply H; auto.
Qed.

(* ================================================================== *)
(** ** Bloch vectors of wire 0 *)
(* ================================================================== *)

Lemma bloch_vector_generator_firstn (g : list R) :
  bloch_vector_generator g = bloch_vector_generator (firstn 9 g).
Proof.
  unfold bloch_vector_generator, qnode_all.
  rewrite (generator_firstn g). reflexivity.
Qed.

Lemma bloch_vector_generator_eq (g : list R) :
  length g = 9%nat ->
  bloch_vector_generator g
  = Some (map (fun o => expectation o (run (tape_of (generator g)) create))
              obs).
Proof. intros Hg. explode_weights Hg. reflexivity. Qed.

Lemma bloch_vector_generator_short (g : list R) :
  (length g < 9)%nat -> bloch_vector_generator g = None.
Proof.
  intros Hg. unfold bloch_vector_generator, qnode_all.
  rewrite (generator_short g [] Hg). reflexivity.
Qed.

(** The three expectations on wire 0, on the amplitudes: [a] are those
    with wire 0 at 0, [b] those with wire 0 at 1. *)
Lemma bloch_components
      (a0r a0i a1r a1i a2r a2i a3r a3i b0r b0i b1r b1i b2r b2i b3r b3i : R) :
  let s := [mkC a0r a0i; mkC a1r a1i; mkC a2r a2i; mkC a3r a3i;
            mkC b0r b0i; mkC b1r b1i; mkC b2r b2i; mkC b3r b3i] in
  expectation (Obs PauliX 0) s
  = 2 * (a0r * b0r + a0i * b0i + a1r * b1r + a1i * b1i
         + a2r * b2r + a2i * b2i + a3r * b3r + a3i * b3i) /\
  expectation (Obs PauliY 0) s
  = 2 * (a0r * b0i - a0i * b0r + a1r * b1i - a1i * b1r
         + a2r * b2i - a2i * b2r + a3r * b3i - a3i * b3r) /\
  expectation (Obs PauliZ 0) s
  = (a0r * a0r + a0i * a0i + a1r * a1r + a1i * a1i
     + a2r * a2r + a2i * a2i + a3r * a3r + a3i * a3i)
    - (b0r * b0r + b0i * b0i + b1r * b1r + b1i * b1i
       + b2r * b2r + b2i * b2i + b3r * b3r + b3i * b3i) /\
  norm2 s
  = (a0r * a0r + a0i * a0i + a1r * a1r + a1i * a1i
     + a2r * a2r + a2i * a2i + a3r * a3r + a3i * a3i)
    + (b0r * b0r + b0i * b0i + b1r * b1r + b1i * b1i
       + b2r * b2r + b2i * b2i + b3r * b3r + b3i * b3i).
Proof. cbv zeta. repeat split; crunch; ring. Qed.

(** Cauchy-Schwarz for the two halves of the state, as a sum of squares. *)
Lemma bloch_sos
      (a0r a0i a1r a1i a2r a2i a3r a3i b0r b0i b1r b1i b2r b2i b3r b3i : R) :
  let X := 2 * (a0r * b0r + a0i * b0i + a1r * b1r + a1i * b1i
                + a2r * b2r + a2i * b2i + a3r * b3r + a3i * b3i) in
  let Y := 2 * (a0r * b0i - a0i * b0r + a1r * b1i - a1i * b1r
                + a2r * b2i - a2i * b2r + a3r * b3i - a3i * b3r) in
  let A := a0r * a0r + a0i * a0i + a1r * a1r + a1i * a1i
           + a2r * a2r + a2i * a2i + a3r * a3r + a3i * a3i in
  let B := b0r * b0r + b0i * b0i + b1r * b1r + b1i * b1i
           + b2r * b2r + b2i * b2i + b3r * b3r + b3i * b3i in
  X * X + Y * Y + (A - B) * (A - B) <= (A + B) * (A + B).
Proof.
  cbv zeta.
  pose (sq := fun pr pi qr qi sr si tr ti : R =>
    ((pr * qr - pi * qi) - (sr * tr - si * ti))
    * ((pr * qr - pi * qi) - (sr * tr - si * ti))
    + ((pr * qi + pi * qr) - (sr * ti + si * tr))
      * ((pr * qi + pi * qr) - (sr * ti + si * tr))).
  assert (Hsq : forall pr pi qr qi sr si tr ti,
             0 <= sq pr pi qr qi sr si tr ti).
  { intros. unfold sq.
    match goal with
    | |- 0 <= ?u * ?u + ?v * ?v =>
        pose proof (Rle_0_sqr u); pose proof (Rle_0_sqr v)
    end.
    unfold Rsqr in *. lra. }
  pose proof (Hsq a0r a0i b1r b1i a1r a1i b0r b0i) as H01.
  pose proof (Hsq a0r a0i b2r b2i a2r a2i b0r b0i) as H02.
  pose proof (Hsq a0r a0i b3r b3i a3r a3i b0r b0i) as H03.
  pose proof (Hsq a1r a1i b2r b2i a2r a2i b1r b1i) as H12.
  pose proof (Hsq a1r a1i b3r b3i a3r a3i b1r b1i) as H13.
  pose proof (Hsq a2r a2i b3r b3i a3r a3i b2r b2i) as H23.
  match goal with
  | |- ?L <= ?Rr =>
      assert (E : Rr - L
                  = 4 * (sq a0r a0i b1r b1i a1r a1i b0r b0i
                         + sq a0r a0i b2r b2i a2r a2i b0r b0i
                         + sq a0r a0i b3r b3i a3r a3i b0r b0i
                         + sq a1r a1i b2r b2i a2r a2i b1r b1i
                         + sq a1r a1i b3r b3i a3r a3i b1r b1i
                         + sq a2r a2i b3r b3i a3r a3i b2r b2i))
        by (unfold sq; ring)
  end.
  lra.
Qed.

(** *** The Bloch vector of the real data *)

Lemma double_angle (x : R) :
  cos x = cos (x / 2) * cos (x / 2) - sin (x / 2) * sin (x / 2) /\
  sin x = 2 * sin (x / 2) * cos (x / 2).
Proof.
  pose proof (cos_2a (x / 2)) as Hc. pose proof (sin_2a (x / 2)) as Hs.
  replace (2 * (x / 2)) with x in Hc, Hs by field.
  split; assumption.
Qed.

(** The state the real-data circuit prepares: wire 0 carries the two
    amplitudes, wires 1 and 2 are in |0>. *)
Lemma real_state (p t o : R) :
  let cp := cos (p / 2) in let sp := sin (p / 2) in
  let ct := cos (t / 2) in let st := sin (t / 2) in
  let co := cos (o / 2) in let so := sin (o / 2) in
  let h := / sqrt 2 in
  run [Hadamard 0; Rot p t o 0] create
  = [mkC (h * (ct * (co * cp - so * sp) - st * (co * cp + so * sp)))
         (h * (- ct * (co * sp + so * cp) - st * (co * sp - so * cp)));
     mkC 0 0; mkC 0 0; mkC 0 0;
     mkC (h * (st * (co * cp + so * sp) + ct * (co * cp - so * sp)))
         (h * (st * (so * cp - co * sp) + ct * (co * sp + so * cp)));
     mkC 0 0; mkC 0 0; mkC 0 0].
Proof. cbv zeta. crunch. list_eq. Qed.

Ltac real_bloch_setup p t o :=
  pose proof (real_state p t o) as Est; cbv zeta in Est; rewrite Est;
  clear Est;
  match goal with
  | |- context [[mkC ?a0r ?a0i; _; _; _; mkC ?b0r ?b0i; _; _; _]] =>
      destruct (bloch_components a0r a0i 0 0 0 0 0 0 b0r b0i 0 0 0 0 0 0)
        as (EX & EY & EZ & _);
      cbv zeta in EX, EY, EZ
  end.

Lemma real_bloch_x (p t o : R) :
  expectation (Obs PauliX 0) (run [Hadamard 0; Rot p t o 0] create)
  = cos o * cos p * cos t - sin o * sin p.
Proof.
  destruct (double_angle p) as [-> ->].
  destruct (double_angle t) as [-> _].
  destruct (double_angle o) as [-> ->].
  real_bloch_setup p t o. rewrite EX. clear EX EY EZ.
  generalize inv_sqrt2_sqr.
  generalize (sin2_cos2' (t / 2)).
  generalize (cos (p / 2)), (sin (p / 2)), (cos (t / 2)), (sin (t / 2)),
             (cos (o / 2)), (sin (o / 2)), (/ sqrt 2).
  intros cp sp ct st co so h Ht Hh.
  match goal with
  | |- ?L = _ =>
      replace L
        with (h * h * 2
              * ((co * co - so * so) * (cp * cp - sp * sp) * (ct * ct - st * st)
                 - (2 * so * co) * (2 * sp * cp) * (ct * ct + st * st)))
        by ring
  end.
  rewrite Hh, Ht. field.
Qed.

Lemma real_bloch_y (p t o : R) :
  expectation (Obs PauliY 0) (run [Hadamard 0; Rot p t o 0] create)
  = sin o * cos p * cos t + cos o * sin p.
Proof.
  destruct (double_angle p) as [-> ->].
  destruct (double_angle t) as [-> _].
  destruct (double_angle o) as [-> ->].
  real_bloch_setup p t o. rewrite EY. clear EX EY EZ.
  generalize inv_sqrt2_sqr.
  generalize (sin2_cos2' (t / 2)).
  generalize (cos (p / 2)), (sin (p / 2)), (cos (t / 2)), (sin (t / 2)),
             (cos (o / 2)), (sin (o / 2)), (/ sqrt 2).
  intros cp sp ct st co so h Ht Hh.
  match goal with
  | |- ?L = _ =>
      replace L
        with (h * h * 2
              * ((2 * so * co) * (cp * cp - sp * sp) * (ct * ct - st * st)
                 + (co * co - so * so) * (2 * sp * cp) * (ct * ct + st * st)))
        by ring
  end.
  rewrite Hh, Ht. field.
Qed.

Lemma real_bloch_z (p t o : R) :
  expectation (Obs PauliZ 0) (run [Hadamard 0; Rot p t o 0] create)
  = - (cos p * sin t).
Proof.
  destruct (double_angle p) as [-> _].
  destruct (double_angle t) as [_ ->].
  real_bloch_setup p t o. rewrite EZ. clear EX EY EZ.
  generalize inv_sqrt2_sqr.
  generalize (sin2_cos2' (o / 2)).
  generalize (cos (p / 2)), (sin (p / 2)), (cos (t / 2)), (sin (t / 2)),
             (cos (o / 2)), (sin (o / 2)), (/ sqrt 2).
  intros cp sp ct st co so h Ho Hh.
  match goal with
  | |- ?L = _ =>
      replace L
        with (h * h * 2
              * (- ((cp * cp - sp * sp) * (2 * st * ct)
                    * (co * co + so * so))))
        by ring
  end.
  rewrite Hh, Ho. field.
Qed.

Lemma bloch_vector_real_cases (angles : list R) :
  bloch_vector_real angles
  = match angles with
    | [p; t; o] =>
        Some (map (fun ob =>
                     expectation ob (run [Hadamard 0; Rot p t o 0] create))
                  obs)
    | _ => None
    end.
Proof.
  destruct angles as [|p [|t [|o [|? ?]]]]; reflexivity.
Qed.

(** X7: [bloch_vector_real] returns a value exactly for three angles, and
    for angles phi, theta, omega it is the unit vector
    (cos omega cos phi cos theta - sin omega sin phi,
     sin omega cos phi cos theta + cos omega sin phi,
     - cos phi sin theta):
    the real data are a pure state of wire 0. *)
Theorem bloch_vector_real_closed_form (angles : list R) :
  match angles with
  | [p; t; o] =>
      let x := cos o * cos p * cos t - sin o * sin p in
      let y := sin o * cos p * cos t + cos o * sin p in
      let z := - (cos p * sin t) in
      bloch_vector_real angles = Some [x; y; z] /\
      x * x + y * y + z * z = 1
  | _ => bloch_vector_real angles = None
  end.
Proof.
  rewrite bloch_vector_real_cases.
  destruct angles as [|p [|t [|o [|? ?]]]]; try reflexivity.
  cbv zeta. cbn [map obs].
  rewrite real_bloch_x, real_bloch_y, real_bloch_z.
  split; [reflexivity|].
  pose proof (sin2_cos2' p) as Hp. pose proof (sin2_cos2' t) as Ht.
  pose proof (sin2_cos2' o) as Ho.
  replace ((cos o * cos p * cos t - sin o * sin p)
           * (cos o * cos p * cos t - sin o * sin p)
           + (sin o * cos p * cos t + cos o * sin p)
             * (sin o * cos p * cos t + cos o * sin p)
           + - (cos p * sin t) * - (cos p * sin t))
    with ((cos o * cos o + sin o * sin o)
          * (cos p * cos p * (cos t * cos t) + sin p * sin p)
          + cos p * cos p * (sin t * sin t))
    by ring.
  rewrite Ho.
  replace (1 * (cos p * cos p * (cos t * cos t) + sin p * sin p)
           + cos p * cos p * (sin t * sin t))
    with (cos p * cos p * (cos t * cos t + sin t * sin t) + sin p * sin p)
    by ring.
  rewrite Ht. lra.
Qed.

(** For the notebook's angles this is the vector it prints. *)
Example bloch_vector_real_notebook :
  bloch_vector_real [PI / 6; PI / 2; PI / 7]
  = Some [- (sin (PI / 7) / 2); cos (PI / 7) / 2; - (sqrt 3 / 2)].
Proof.
  pose proof (bloch_vector_real_cases [PI / 6; PI / 2; PI / 7]) as E.
  cbn [map obs] in E. rewrite E.
  rewrite real_bloch_x, real_bloch_y, real_bloch_z.
  rewrite cos_PI2, sin_PI2, cos_PI6, sin_PI6.
  f_equal. f_equal; [field|]. f_equal; [field|]. f_equal. field.
Qed.

(** *** The generator at its starting point *)

(** A rotation by the angle 0 is the identity. *)
Lemma rotation_zero (w : Wire) (s : State) :
  (w < n_wires)%nat -> length s = dim ->
  apply (RX 0 w) s = s /\ apply (RY 0 w) s = s /\ apply (RZ 0 w) s = s.
Proof.
  intros Hw Hs. explode_state Hs.
  pose proof half_0 as H0. pose proof cos_0 as Hc. pose proof sin_0 as Hsn.
  explode_wire Hw; split_amps; repeat split;
    crunch; rewrite H0, Hc, Hsn; list_eq.
Qed.

Lemma rx_zero (w : Wire) (s : State) :
  (w < n_wires)%nat -> length s = dim -> apply (RX 0 w) s = s.
Proof. intros Hw Hs. apply (rotation_zero w s Hw Hs). Qed.

Lemma ry_zero (w : Wire) (s : State) :
  (w < n_wires)%nat -> length s = dim -> apply (RY 0 w) s = s.
Proof. intros Hw Hs. apply (rotation_zero w s Hw Hs). Qed.

Lemma rz_zero (w : Wire) (s : State) :
  (w < n_wires)%nat -> length s = dim -> apply (RZ 0 w) s = s.
Proof. intros Hw Hs. apply (rotation_zero w s Hw Hs). Qed.

Lemma bloch_generator_start (o : Observable) (x : R) :
  In o obs ->
  expectation o (run (tape_of (generator [x; 0; 0; 0; 0; 0; 0; 0; 0])) create)
  = 0.
Proof.
  intros Ho.
  change (tape_of (generator [x; 0; 0; 0; 0; 0; 0; 0; 0]))
    with (Hadamard 0 :: RX x 0
          :: [RX 0 1; RY 0 0; RY 0 1; RZ 0 0; RZ 0 1; CNOT 0 1;
              RX 0 0; RY 0 0; RZ 0 0]).
  rewrite phase_head
    by (destruct Ho as [<- | [<- | [<- | []]]]; cbn; unfold n_wires; lia).
  cbn [run fold_left].
  rewrite !rx_zero, !ry_zero, !rz_zero
    by (auto using apply_length; unfold n_wires; lia).
  destruct Ho as [<- | [<- | [<- | []]]]; crunch; ring.
Qed.

(** X8: with weights 1 to 8 equal to 0, as in the vector
    [pi, 0, ..., 0] the notebook starts from before adding noise, and
    with any first weight, [bloch_vector_generator] returns (0, 0, 0):
    the ControlledNot entangles wire 0 with the workspace wire and leaves
    it maximally mixed.  The state |1> would give (0, 0, -1). *)
Theorem generator_start_is_mixed (x : R) :
  bloch_vector_generator [x; 0; 0; 0; 0; 0; 0; 0; 0] = Some [0; 0; 0] /\
  bloch_vector_generator ref_gen_weights = Some [0; 0; 0].
Proof.
  assert (H : forall y, bloch_vector_generator [y; 0; 0; 0; 0; 0; 0; 0; 0]
                        = Some [0; 0; 0]).
  { intros y. rewrite bloch_vector_generator_eq by reflexivity.
    cbn [map obs].
    rewrite !bloch_generator_start by (cbn; tauto). reflexivity. }
  split; [apply H | apply (H PI)].
Qed.

(* ================================================================== *)
(** ** The costs obey the shift rule *)
(* ================================================================== *)

Lemma shift_rule_affine (f h : R -> R) (a b c : R) :
  obeys_shift_rule f -> obeys_shift_rule h ->
  obeys_shift_rule (fun x => a * f x + b * h x + c).
Proof.
  intros Hf Hh x.
  replace ((a * f (x + PI / 2) + b * h (x + PI / 2) + c
            - (a * f (x - PI / 2) + b * h (x - PI / 2) + c)) / 2)
    with (a * ((f (x + PI / 2) - f (x - PI / 2)) / 2)
          + b * ((h (x + PI / 2) - h (x - PI / 2)) / 2) + 0)
    by field.
  apply (derivable_pt_lim_ext
           (mult_real_fct a f + mult_real_fct b h + fct_cte c)%F).
  { intros y. reflexivity. }
  apply derivable_pt_lim_plus; [apply derivable_pt_lim_plus|].
  - apply derivable_pt_lim_scal, Hf.
  - apply derivable_pt_lim_scal, Hh.
  - apply derivable_pt_lim_const.
Qed.

Lemma gen_disc_shift_gen (g d : list R) (i : nat) :
  length g = 9%nat -> length d = 9%nat -> (i < 9)%nat ->
  exists f, (forall x, gen_disc_circuit (upd g i x) d = Some (f x)) /\
            obeys_shift_rule f.
Proof.
  intros Hg Hd Hi.
  pose proof (weight_pos_lt i Hi) as Hpos.
  pose proof (generator_tape_length g Hg) as Lg.
  destruct (generator_weight_gate g i Hg Hi) as (rg & Eg & Rg & Og).
  assert (W2 : (2 < n_wires)%nat) by (unfold n_wires; lia).
  exists (fun x => expectation (Obs PauliZ 2)
            (run (retune (tape_of (generator g) ++ tape_of (discriminator d))
                         (weight_pos i) x) create)).
  split.
  - intros x. rewrite gen_disc_circuit_eq by (rewrite ?upd_length; assumption).
    rewrite generator_retune, retune_app_l by (assumption || lia).
    reflexivity.
  - refine (retune_shift _ _ rg 2%nat _ Rg Og W2).
    rewrite nth_error_app1 by lia. exact Eg.
Qed.

(** The discriminator weight [i] behind any circuit [c0] run first. *)
Lemma disc_shift_after (c0 : Circuit) (d : list R) (i : nat) :
  length d = 9%nat -> (i < 9)%nat ->
  obeys_shift_rule
    (fun x => expectation (Obs PauliZ 2)
                (run (c0 ++ tape_of (discriminator (upd d i x))) create)).
Proof.
  intros Hd Hi.
  destruct (discriminator_weight_gate d i Hd Hi) as (rd & Ed & Rd & Od).
  assert (W2 : (2 < n_wires)%nat) by (unfold n_wires; lia).
  intros x.
  apply (derivable_pt_lim_ext
           (fun y => expectation (Obs PauliZ 2)
                       (run (retune (c0 ++ tape_of (discriminator d))
                                    (length c0 + weight_pos i) y) create))).
  { intros y. rewrite discriminator_retune, retune_app_r by assumption.
    reflexivity. }
  rewrite !discriminator_retune, <- !retune_app_r by assumption.
  refine (retune_shift _ _ rd 2%nat _ Rd Od W2 x).
  rewrite nth_error_app2 by lia.
  replace (length c0 + weight_pos i - length c0)%nat
    with (weight_pos i) by lia.
  exact Ed.
Qed.

(** X9: both cost functions obey the parameter-shift rule in each of
    their nine weights.  A discriminator weight enters [disc_cost] through
    two circuits at once, and the rule still holds because it is linear
    in the function. *)
Theorem costs_obey_shift_rule (G : Globals) (g d : list R) (i : nat) :
  length (gen_weights G) = 9%nat -> length (disc_weights G) = 9%nat ->
  length g = 9%nat -> length d = 9%nat -> (i < 9)%nat ->
  (exists f, (forall x, disc_cost G (upd d i x) = Some (f x)) /\
             obeys_shift_rule f) /\
  (exists f, (forall x, gen_cost G (upd g i x) = Some (f x)) /\
             obeys_shift_rule f).
Proof.
  intros HG HD Hg Hd Hi. split.
  - set (cg := tape_of (generator (gen_weights G))).
    set (cr := tape_of (real [phi G; theta G; omega G])).
    exists (fun x =>
              / 2 * expectation (Obs PauliZ 2)
                      (run (cg ++ tape_of (discriminator (upd d i x))) create)
              + - / 2 * expectation (Obs PauliZ 2)
                          (run (cr ++ tape_of (discriminator (upd d i x)))
                               create)
              + 0).
    split.
    + intros x. unfold disc_cost, prob_fake_true, prob_real_true.
      rewrite gen_disc_circuit_eq, real_disc_circuit_eq
        by (rewrite ?upd_length; assumption).
      cbn [option_map]. f_equal. subst cg cr. field.
    + apply shift_rule_affine; apply disc_shift_after; assumption.
  - destruct (gen_disc_shift_gen g (disc_weights G) i Hg HD Hi)
      as (f & Ef & Sf).
    exists (fun x => - / 2 * f x + 0 * f x + - / 2).
    split.
    + intros x. unfold gen_cost, prob_fake_true. rewrite Ef.
      cbn [option_map]. f_equal. field.
    + apply shift_rule_affine; exact Sf.
Qed.

Lemma costs_obey_shift_rule_witness :
  (exists f, (forall x, disc_cost ref_globals (upd ref_disc_weights 3 x)
                        = Some (f x)) /\
             obeys_shift_rule f) /\
  (exists f, (forall x, gen_cost ref_globals (upd ref_gen_weights 3 x)
                        = Some (f x)) /\
             obeys_shift_rule f).
Proof.
  assert (H3 : (3 < 9)%nat) by lia.
  exact (costs_obey_shift_rule ref_globals ref_gen_weights ref_disc_weights
                               3%nat eq_refl eq_refl eq_refl eq_refl H3).
Defined.

(* ================================================================== *)
(** ** More on the training loop *)
(* ================================================================== *)

(** *** What one optimiser step does to a session *)

Lemma sgd_update_some (lr : R) (w g w' : list R) :
  sgd_update lr w g = Some w' -> length w' = length w.
Proof.
  unfold sgd_update. destruct (Nat.eqb (length w) (length g)) eqn:E;
    [|discriminate].
  apply Nat.eqb_eq in E. intros H. injection H as <-.
  rewrite length_map, length_combine, <- E. apply Nat.min_id.
Qed.

Section MoreTrainingFacts.

Variable gradient : (list R -> option R) -> list R -> option (list R).

Lemma minimize_one (cost : Globals -> option R) (v : Var) (s s1 : Session) :
  minimize gradient cost [v] s = Some s1 ->
  exists w', length w' = length (read v (globals s)) /\
             globals s1 = write v w' (globals s) /\
             opt s1 = mkOptimizer (learning_rate (opt s))
                                  (S (iterations (opt s))) /\
             stdout s1 = stdout s.
Proof.
  unfold minimize. cbn [gradients].
  destruct (gradient (fun x => cost (write v x (globals s)))
                     (read v (globals s))) as [g|]; [|discriminate].
  cbn [apply_gradients].
  destruct (sgd_update (learning_rate (opt s)) (read v (globals s)) g)
    as [w'|] eqn:E; [|discriminate].
  intros H. injection H as <-. exists w'.
  split; [exact (sgd_update_some _ _ _ _ E)|]. repeat split.
Qed.

End MoreTrainingFacts.

(** *** Loops, iteration by iteration *)

(** A relation between the iteration count and the session that every
    successful iteration carries forward holds of the loop's result. *)
Lemma for_range_rel (Rel : nat -> Session -> Prop)
      (body : nat -> Session -> option Session) (s : Session) (n : nat) :
  Rel 0%nat s ->
  (forall k sk sk', (k < n)%nat -> Rel k sk -> body k sk = Some sk' ->
                    Rel (S k) sk') ->
  forall sn, for_range n body s = Some sn -> Rel n sn.
Proof.
  intros H0. induction n as [|n IH]; intros Hstep sn E.
  - cbn in E. injection E as <-. exact H0.
  - rewrite for_range_S in E.
    destruct (for_range n body s) as [sk|] eqn:Ek; [|discriminate E].
    apply (Hstep n sk sn (Nat.lt_succ_diag_r n)); [|exact E].
    apply IH; [|reflexivity]. intros k sj sj' Hk. apply Hstep. lia.
Qed.

(** Once an iteration has raised, the loop has no result. *)
Lemma for_range_first_fails (body : nat -> Session -> option Session)
      (s : Session) (n : nat) :
  body 0%nat s = None -> for_range (S n) body s = None.
Proof.
  intros K. unfold for_range. cbn [seq fold_left]. rewrite K.
  generalize (seq 1 n). intros l. induction l as [|k l IH]; [reflexivity|].
  exact IH.
Qed.

Lemma printed_steps_S (k : nat) :
  printed_steps (S k)
  = printed_steps k ++ (if Nat.eqb (k mod 5) 0 then [k] else []).
Proof.
  unfold printed_steps. rewrite seq_S, filter_app. cbn [filter Nat.add].
  destruct (Nat.eqb (k mod 5) 0); reflexivity.
Qed.

Section LoopFacts.

Variable gradient : (list R -> option R) -> list R -> option (list R).

(** One iteration of either loop: an optimiser step on variable [v],
    then, every fifth step, the cost of the new weights is printed. *)
Lemma step_shape (cost : Globals -> option R) (v : Var) (k : nat)
      (s s' : Session) :
  match minimize gradient cost [v] s with
  | Some s1 =>
      if Nat.eqb (k mod 5) 0
      then match cost (globals s1) with
           | Some c => Some (print (StepCost k c) s1)
           | None => None
           end
      else Some s1
  | None => None
  end = Some s' ->
  exists w',
    length w' = length (read v (globals s)) /\
    globals s' = write v w' (globals s) /\
    opt s' = mkOptimizer (learning_rate (opt s)) (S (iterations (opt s))) /\
    if Nat.eqb (k mod 5) 0
    then exists c, cost (globals s') = Some c /\
                   stdout s' = stdout s ++ [StepCost k c]
    else stdout s' = stdout s.
Proof.
  destruct (minimize gradient cost [v] s) as [s1|] eqn:E1; [|discriminate].
  destruct (minimize_one gradient cost v s s1 E1) as (w' & Lw & EG & EO & ES).
  destruct (Nat.eqb (k mod 5) 0).
  - destruct (cost (globals s1)) as [c|] eqn:Ec; [|discriminate].
    intros K. injection K as <-. exists w'.
    cbn [print globals opt stdout].
    repeat split; try assumption.
    exists c. split; [exact Ec | rewrite ES; reflexivity].
  - intros K. injection K as <-. exists w'. repeat split; assumption.
Qed.

Lemma write_read (v : Var) (G : Globals) : write v (read v G) G = G.
Proof. destruct G, v; reflexivity. Qed.

Lemma write_write (v : Var) (w w' : list R) (G : Globals) :
  write v w' (write v w G) = write v w' G.
Proof. destruct v; reflexivity. Qed.

Lemma read_write (v : Var) (w : list R) (G : Globals) :
  read v (write v w G) = w.
Proof. destruct v; reflexivity. Qed.

Lemma trace_start (v : Var) (s : Session) :
  trace v s 0 s.
Proof.
  split; [|split].
  - exists (read v (globals s)). split; [reflexivity|].
    symmetry. apply write_read.
  - rewrite Nat.add_0_r. destruct (opt s); reflexivity.
  - exists []. split; [symmetry; apply app_nil_r | reflexivity].
Qed.

Lemma trace_step (cost : Globals -> option R) (v : Var)
      (s sk sk' : Session) (k : nat) :
  trace v s k sk ->
  match minimize gradient cost [v] sk with
  | Some s1 =>
      if Nat.eqb (k mod 5) 0
      then match cost (globals s1) with
           | Some c => Some (print (StepCost k c) s1)
           | None => None
           end
      else Some s1
  | None => None
  end = Some sk' ->
  trace v s (S k) sk'.
Proof.
  intros ((w & Lw & EG) & EO & out & ES & Esteps) E.
  destruct (step_shape cost v k sk sk' E) as (w' & Lw' & EG' & EO' & Hprint).
  split; [|split].
  - exists w'. split.
    + rewrite Lw', EG, read_write. exact Lw.
    + rewrite EG', EG. apply write_write.
  - rewrite EO', EO. cbn [learning_rate iterations]. f_equal. lia.
  - rewrite printed_steps_S. destruct (Nat.eqb (k mod 5) 0).
    + destruct Hprint as (c & Ec & ES').
      exists (out ++ [StepCost k c]).
      split; [rewrite ES', ES; symmetry; apply app_assoc|].
      rewrite !map_app, Esteps. reflexivity.
    + exists out. rewrite app_nil_r. split; [|exact Esteps].
      rewrite Hprint. exact ES.
Qed.

Lemma phase_D_trace (s sD : Session) :
  phase_D gradient s = Some sD -> trace DiscWeights s 50 sD.
Proof.
  apply (for_range_rel (trace DiscWeights s)); [apply trace_start|].
  intros k sk sk' _ Hk E.
  exact (trace_step cost_D DiscWeights s sk sk' k Hk E).
Qed.

Lemma phase_G_trace (s sG : Session) :
  phase_G gradient s = Some sG -> trace GenWeights s 50 sG.
Proof.
  apply (for_range_rel (trace GenWeights s)); [apply trace_start|].
  intros k sk sk' _ Hk E.
  exact (trace_step cost_G GenWeights s sk sk' k Hk E).
Qed.

Lemma trace_frame (v : Var) (s sk : Session) (k : nat) :
  trace v s k sk ->
  frame s sk /\ iterations (opt sk) = (iterations (opt s) + k)%nat.
Proof.
  intros ((w & _ & EG) & EO & out & ES & _).
  unfold frame. rewrite EG, EO.
  destruct v; cbn; repeat split; eauto.
Qed.

Lemma report_D_shape (s s' : Session) :
  report_D s = Some s' ->
  exists pr pf, globals s' = globals s /\ opt s' = opt s /\
                stdout s' = stdout s ++ [ProbRealReal pr; ProbFakeReal pf].
Proof.
  unfold report_D.
  destruct (prob_real_true (globals s) (disc_weights (globals s)))
    as [pr|] eqn:Er; [|discriminate].
  destruct (prob_fake_true (gen_weights (globals s))
                           (disc_weights (globals s)))
    as [pf|] eqn:Ef; [|discriminate].
  intros K. injection K as <-. exists pr, pf.
  cbn [print globals opt stdout]. repeat split.
  rewrite <- app_assoc. reflexivity.
Qed.

Lemma report_G_shape (s s' : Session) :
  report_G s = Some s' ->
  exists pf dc, globals s' = globals s /\ opt s' = opt s /\
                stdout s' = stdout s ++ [ProbFakeReal pf; DiscCost dc].
Proof.
  unfold report_G.
  destruct (prob_fake_true (gen_weights (globals s))
                           (disc_weights (globals s)))
    as [pf|] eqn:Ef; [|discriminate].
  destruct (disc_cost (globals s) (disc_weights (globals s)))
    as [dc|] eqn:Ed; [|discriminate].
  intros K. injection K as <-. exists pf, dc.
  cbn [print globals opt stdout]. repeat split.
  rewrite <- app_assoc. reflexivity.
Qed.

(** The four stages of a training run that returned. *)
Lemma train_stages (s s' : Session) :
  train gradient s = Some s' ->
  exists sD sR sG,
    phase_D gradient s = Some sD /\ report_D sD = Some sR /\
    phase_G gradient sR = Some sG /\ report_G sG = Some s'.
Proof.
  unfold train.
  destruct (phase_D gradient s) as [sD|]; [|discriminate].
  destruct (report_D sD) as [sR|] eqn:ER; [|discriminate].
  destruct (phase_G gradient sR) as [sG|] eqn:EG; [|discriminate].
  intros E. exists sD, sR, sG. auto.
Qed.

End LoopFacts.

(** Training has a result when both weight vectors have nine entries and
    the gradient is defined. *)
Lemma train_total (gradient : (list R -> option R) -> list R -> option (list R))
      (s : Session) :
  gradient_defined gradient -> shapes_ok s ->
  exists s', train gradient s = Some s' /\ shapes_ok s'.
Proof.
  intros Hgrad Hs.
  destruct (steps_D gradient Hgrad s 50 Hs) as (sD & ED & HsD & _).
  destruct (report_D_ok sD HsD) as (sR & ER & EGR & _).
  assert (HsR : shapes_ok sR) by (unfold shapes_ok; rewrite EGR; exact HsD).
  destruct (steps_G gradient Hgrad sR 50 HsR) as (sG & EG & HsG & _).
  destruct (report_G_ok sG HsG) as (sEnd & EE & EGE & _).
  exists sEnd. split.
  - unfold train. fold (phase_D gradient s). unfold phase_D, phase_G.
    rewrite ED, ER, EG. exact EE.
  - unfold shapes_ok. rewrite EGE. exact HsG.
Qed.

(** X10: whatever the gradient, a training run that returns has changed
    neither the fixed angles phi, theta, omega nor the learning rate, has
    only added lines to the output, and has taken exactly 100 optimiser
    steps. *)
Theorem training_frame
        (gradient : (list R -> option R) -> list R -> option (list R))
        (s s' : Session) :
  train gradient s = Some s' ->
  frame s s' /\ iterations (opt s') = (iterations (opt s) + 100)%nat.
Proof.
  intros E.
  destruct (train_stages gradient s s' E) as (sD & sR & sG & ED & ER & EG & EE).
  destruct (trace_frame _ _ _ _ (phase_D_trace gradient s sD ED))
    as ((Dp & Dt & Do & Dl & outD & DS) & Di).
  destruct (report_D_shape sD sR ER) as (pr & pf & RG & RO & RS).
  destruct (trace_frame _ _ _ _ (phase_G_trace gradient sR sG EG))
    as ((Gp & Gt & Go & Gl & outG & GS) & Gi).
  destruct (report_G_shape sG s' EE) as (pf' & dc & EG' & EO' & ES').
  unfold frame. rewrite EG', EO', Gp, Gt, Go, Gl, Gi, RG, RO, Dp, Dt, Do, Dl, Di.
  repeat split; try reflexivity; [|lia].
  exists (outD ++ [ProbRealReal pr; ProbFakeReal pf] ++ outG
          ++ [ProbFakeReal pf'; DiscCost dc]).
  rewrite ES', GS, RS, DS. rewrite <- !app_assoc. reflexivity.
Qed.

Lemma training_frame_witness :
  exists s',
    train shift_gradient ref_session = Some s' /\
    frame ref_session s' /\
    iterations (opt s') = (iterations (opt ref_session) + 100)%nat.
Proof.
  assert (Hs : shapes_ok ref_session) by (split; reflexivity).
  destruct (train_total shift_gradient ref_session shift_gradient_defined Hs)
    as (s' & E & _).
  exists s'. split; [exact E|].
  exact (training_frame shift_gradient ref_session s' E).
Defined.


(** *** What is printed does not feed back *)

Lemma core_eq (s t : Session) :
  core s = core t -> globals s = globals t /\ opt s = opt t.
Proof. unfold core. intros H. injection H as H1 H2. auto. Qed.

Lemma option_core_eq (a b : option Session) :
  option_map core a = option_map core b ->
  match a, b with
  | Some s, Some t => core s = core t
  | None, None => True
  | _, _ => False
  end.
Proof.
  destruct a, b; cbn [option_map]; intros H; try discriminate; auto.
  congruence.
Qed.

Section PrintFacts.

Variable gradient : (list R -> option R) -> list R -> option (list R).

Lemma minimize_core (cost : Globals -> option R) (vars : list Var)
      (s t : Session) :
  core s = core t ->
  option_map core (minimize gradient cost vars s)
  = option_map core (minimize gradient cost vars t).
Proof.
  intros H. apply core_eq in H as [HG HO]. unfold minimize.
  rewrite HG, HO.
  destruct (gradients gradient cost (globals t) vars) as [gs|]; [|reflexivity].
  destruct (apply_gradients (learning_rate (opt t)) gs (globals t));
    reflexivity.
Qed.

Lemma step_core (cost : Globals -> option R) (v : Var) (k : nat)
      (s t : Session) :
  core s = core t ->
  option_map core
    match minimize gradient cost [v] s with
    | Some s1 =>
        if Nat.eqb (k mod 5) 0
        then match cost (globals s1) with
             | Some c => Some (print (StepCost k c) s1)
             | None => None
             end
        else Some s1
    | None => None
    end
  = option_map core
      match minimize gradient cost [v] t with
      | Some t1 =>
          if Nat.eqb (k mod 5) 0
          then match cost (globals t1) with
               | Some c => Some (print (StepCost k c) t1)
               | None => None
               end
          else Some t1
      | None => None
      end.
Proof.
  intros H. pose proof (minimize_core cost [v] s t H) as Hm.
  apply option_core_eq in Hm.
  destruct (minimize gradient cost [v] s) as [s1|],
           (minimize gradient cost [v] t) as [t1|];
    try contradiction; [|reflexivity].
  destruct (core_eq _ _ Hm) as [HG HO].
  destruct (Nat.eqb (k mod 5) 0); [|cbn; f_equal; exact Hm].
  rewrite HG. destruct (cost (globals t1)); [|reflexivity].
  cbn. unfold core, print. cbn [globals opt]. rewrite HG, HO. reflexivity.
Qed.

Lemma for_range_core (body : nat -> Session -> option Session) (n : nat)
      (s t : Session) :
  (forall k s1 t1, core s1 = core t1 ->
                   option_map core (body k s1) = option_map core (body k t1)) ->
  core s = core t ->
  option_map core (for_range n body s) = option_map core (for_range n body t).
Proof.
  intros Hbody H. induction n as [|n IH]; [cbn; f_equal; exact H|].
  rewrite !for_range_S. apply option_core_eq in IH.
  destruct (for_range n body s) as [sn|], (for_range n body t) as [tn|];
    try contradiction; [|reflexivity].
  apply Hbody, IH.
Qed.

Lemma report_D_core (s t : Session) :
  core s = core t ->
  option_map core (report_D s) = option_map core (report_D t).
Proof.
  intros H. destruct (core_eq _ _ H) as [HG HO]. unfold report_D.
  rewrite HG.
  destruct (prob_real_true (globals t) (disc_weights (globals t)));
    [|reflexivity].
  destruct (prob_fake_true (gen_weights (globals t))
                           (disc_weights (globals t))); [|reflexivity].
  cbn. unfold core, print. cbn [globals opt]. rewrite HG, HO. reflexivity.
Qed.

Lemma report_G_core (s t : Session) :
  core s = core t ->
  option_map core (report_G s) = option_map core (report_G t).
Proof.
  intros H. destruct (core_eq _ _ H) as [HG HO]. unfold report_G.
  rewrite HG.
  destruct (prob_fake_true (gen_weights (globals t))
                           (disc_weights (globals t))); [|reflexivity].
  destruct (disc_cost (globals t) (disc_weights (globals t)));
    [|reflexivity].
  cbn. unfold core, print. cbn [globals opt]. rewrite HG, HO. reflexivity.
Qed.

(** X12: the prints do not feed back into training.  Two sessions that
    differ only in what has been printed so far either both fail or end
    with the same weights, angles and optimiser state. *)
Theorem prints_do_not_matter (s : Session) (out : list Line) :
  option_map core (train gradient s)
  = option_map core (train gradient (mkSession (globals s) (opt s) out)).
Proof.
  set (t := mkSession (globals s) (opt s) out).
  assert (H : core s = core t) by reflexivity.
  unfold train.
  pose proof (for_range_core (step_D gradient) 50 s t
                (fun k => step_core cost_D DiscWeights k) H) as HD.
  fold (phase_D gradient s) in HD. fold (phase_D gradient t) in HD.
  apply option_core_eq in HD.
  destruct (phase_D gradient s) as [sD|], (phase_D gradient t) as [tD|];
    try contradiction; [|reflexivity].
  pose proof (report_D_core sD tD HD) as HR. apply option_core_eq in HR.
  destruct (report_D sD) as [sR|], (report_D tD) as [tR|];
    try contradiction; [|reflexivity].
  pose proof (for_range_core (step_G gradient) 50 sR tR
                (fun k => step_core cost_G GenWeights k) HR) as HG.
  fold (phase_G gradient sR) in HG. fold (phase_G gradient tR) in HG.
  apply option_core_eq in HG.
  destruct (phase_G gradient sR) as [sG|], (phase_G gradient tR) as [tG|];
    try contradiction; [|reflexivity].
  apply report_G_core, HG.
Qed.

Lemma disc_cost_some_lengths (G : Globals) (d : list R) (c : R) :
  disc_cost G d = Some c ->
  (9 <= length (gen_weights G))%nat /\ (9 <= length d)%nat.
Proof.
  unfold disc_cost, prob_fake_true. intros E.
  apply gen_disc_circuit_defined.
  destruct (gen_disc_circuit (gen_weights G) d); [discriminate|].
  discriminate E.
Qed.

(** X13: when a weight vector has fewer than nine entries, training
    raises in its first iteration, whatever the gradient: neither the
    first loop nor the whole run returns a session. *)
Theorem training_rejects_short_weights (s : Session) :
  (length (gen_weights (globals s)) < 9)%nat \/
  (length (disc_weights (globals s)) < 9)%nat ->
  phase_D gradient s = None /\ train gradient s = None.
Proof.
  intros Hshort.
  assert (E0 : step_D gradient 0 s = None).
  { destruct (step_D gradient 0 s) as [s1|] eqn:E; [|reflexivity].
    exfalso.
    destruct (step_shape gradient cost_D DiscWeights 0 s s1 E)
      as (w' & Lw & EG & _ & c & Ec & _).
    unfold cost_D in Ec. apply disc_cost_some_lengths in Ec.
    rewrite EG in Ec. cbn [write set_disc_weights gen_weights disc_weights] in Ec.
    cbn [read] in Lw. lia. }
  assert (ED : phase_D gradient s = None)
    by (apply for_range_first_fails; exact E0).
  split; [exact ED|]. unfold train. fold (phase_D gradient s).
  rewrite ED. reflexivity.
Qed.

End PrintFacts.

Lemma training_rejects_short_weights_witness :
  phase_D shift_gradient (init_session [] []) = None /\
  train shift_gradient (init_session [] []) = None.
Proof.
  apply training_rejects_short_weights. left. cbn. lia.
Defined.

(** *** Starting from the notebook's initial values *)

Lemma init_session_shapes (z_gen z_disc : list R) :
  length z_gen = 9%nat -> length z_disc = 9%nat ->
  shapes_ok (init_session z_gen z_disc).
Proof.
  intros Hg Hd. explode_weights Hg. explode_weights Hd. split; reflexivity.
Qed.

(** X14: for any nine draws for the generator and nine for the
    discriminator, the initial generator weights are
    [pi + eps z0, eps z1, ..., eps z8] with eps = 1/100, both weight
    vectors have nine entries at the start, after each iteration of the
    first loop and at the end, and the run returns (given a gradient that
    is defined where the cost is). *)
Theorem training_from_any_draws
        (gradient : (list R -> option R) -> list R -> option (list R))
        (z_gen z_disc : list R) :
  gradient_defined gradient ->
  length z_gen = 9%nat -> length z_disc = 9%nat ->
  let s0 := init_session z_gen z_disc in
  gen_weights (globals s0)
  = map (fun p => fst p + / 100 * snd p)
        (combine [PI; 0; 0; 0; 0; 0; 0; 0; 0] z_gen) /\
  shapes_ok s0 /\
  (forall k, (k <= 50)%nat ->
     exists sk, for_range k (step_D gradient) s0 = Some sk /\ shapes_ok sk) /\
  exists sEnd, train gradient s0 = Some sEnd /\ shapes_ok sEnd.
Proof.
  intros Hgrad Hg Hd s0.
  pose proof (init_session_shapes z_gen z_disc Hg Hd) as Hs. fold s0 in Hs.
  split.
  { subst s0. explode_weights Hg. reflexivity. }
  split; [exact Hs|]. split.
  - intros k _. destruct (steps_D gradient Hgrad s0 k Hs) as (sk & E & Hk & _).
    exists sk. auto.
  - apply train_total; assumption.
Qed.

Lemma training_from_any_draws_witness :
  shapes_ok ref_session /\
  exists sEnd, train shift_gradient ref_session = Some sEnd /\ shapes_ok sEnd.
Proof.
  destruct (training_from_any_draws shift_gradient
              [0; 0; 0; 0; 0; 0; 0; 0; 0] [0; 0; 0; 0; 0; 0; 0; 0; 0]
              shift_gradient_defined eq_refl eq_refl)
    as (_ & Hs & _ & Hend).
  split; [exact Hs | exact Hend].
Defined.

(* ================================================================== *)
(** ** Unit norm on the single-precision device *)
(* ================================================================== *)

Lemma floor_unique (x : R) (n : Z) :
  IZR n <= x < IZR n + 1 -> F32.floor x = n.
Proof.
  intros [H1 H2]. unfold F32.floor.
  rewrite <- (tech_up x (n + 1)); [lia | |]; rewrite plus_IZR; lra.
Qed.

Lemma nearest_even_below_half (r : R) (n : Z) :
  IZR n <= r < IZR n + / 2 -> F32.nearest_even r = n.
Proof.
  intros [H1 H2]. unfold F32.nearest_even.
  rewrite (floor_unique r n) by lra. cbv zeta.
  destruct (total_order_T (r - IZR n) (/ 2)) as [[H | H] | H];
    [reflexivity | lra | lra].
Qed.

(** Numbers from 1/2 up to 1 have binary exponent -1, so the binary32
    numbers around them are 2^-24 apart. *)
Lemma quantum_half_one (x : R) :
  / 2 <= x < 1 -> F32.quantum x = / 16777216.
Proof.
  intros [H1 H2]. unfold F32.quantum, F32.exponent.
  rewrite Rabs_pos_eq by lra.
  pose proof ln_lt_2 as L2.
  assert (Hlo : - ln 2 <= ln x).
  { rewrite <- ln_Rinv by lra. destruct H1 as [H1 | <-]; [|lra].
    left. apply ln_increasing; lra. }
  assert (Hhi : ln x < 0) by (rewrite <- ln_1; apply ln_increasing; lra).
  assert (E : ln x / ln 2 * ln 2 = ln x) by (field; lra).
  rewrite (floor_unique (ln x / ln 2) (-1)).
  - change (Z.max (-1) (-126) - 23)%Z with (-24)%Z.
    unfold powerRZ. change (Pos.to_nat 24) with 24%nat. simpl pow. field.
  - split; nra.
Qed.

Lemma rnd_0 : F32.rnd 0 = 0.
Proof.
  unfold F32.rnd. destruct (Req_dec_T 0 0) as [_ | H]; [reflexivity|].
  exfalso. apply H. reflexivity.
Qed.

(** Between 1/2 and 1, a real within half a spacing above the binary32
    number [m / 2^24] is rounded to it. *)
Lemma rnd_half_one (x : R) (m : Z) :
  / 2 <= x < 1 ->
  IZR m <= x * 16777216 < IZR m + / 2 ->
  F32.rnd x = IZR m / 16777216.
Proof.
  intros Hx Hm. unfold F32.rnd.
  destruct (Req_dec_T x 0) as [E | _]; [lra|].
  rewrite (quantum_half_one x Hx).
  replace (x / / 16777216) with (x * 16777216) by (field; lra).
  rewrite (nearest_even_below_half _ m Hm). reflexivity.
Qed.

Lemma rnd_h : F32.rnd F32.h = F32.h.
Proof.
  unfold F32.h at 2. apply rnd_half_one; unfold F32.h; lra.
Qed.

Lemma sqrt2_between (a b : R) :
  0 < a -> 0 < b -> a * a < 2 -> 2 < b * b -> a < sqrt 2 < b.
Proof.
  intros Ha Hb Ha2 Hb2.
  pose proof (sqrt_sqrt 2 ltac:(lra)) as E.
  pose proof (sqrt_pos 2) as P.
  split.
  - destruct (Rlt_le_dec a (sqrt 2)) as [H|H]; [exact H|]. exfalso.
    assert (K : sqrt 2 * sqrt 2 <= a * a) by (apply Rmult_le_compat; lra).
    lra.
  - destruct (Rlt_le_dec (sqrt 2) b) as [H|H]; [exact H|]. exfalso.
    assert (K : b * b <= sqrt 2 * sqrt 2) by (apply Rmult_le_compat; lra).
    lra.
Qed.

Lemma sqrt2_bounds :
  16777216 / (11863283 + / 2) < sqrt 2 < 16777216 / 11863283.
Proof.
  assert (Ha : 0 < 16777216 / (11863283 + / 2))
    by (apply Rdiv_lt_0_compat; lra).
  assert (Hb : 0 < 16777216 / 11863283) by lra.
  apply sqrt2_between; try assumption.
  - replace (16777216 / (11863283 + / 2) * (16777216 / (11863283 + / 2)))
      with (1125899906842624 / 562949981605489) by (field; lra).
    lra.
  - lra.
Qed.

(** The Hadamard entry 1 / sqrt 2 is stored as [F32.h]. *)
Lemma rnd_inv_sqrt2 : F32.rnd (/ sqrt 2) = F32.h.
Proof.
  destruct sqrt2_bounds as [Hlo Hhi].
  assert (P : 0 < sqrt 2) by lra.
  assert (E : / sqrt 2 * sqrt 2 = 1) by (field; lra).
  assert (Q : 0 < / sqrt 2) by (apply Rinv_0_lt_compat; exact P).
  assert (Hlo' : (11863283 + / 2) * sqrt 2 > 16777216).
  { apply (Rmult_lt_compat_r (11863283 + / 2)) in Hlo; [|lra].
    replace (16777216 / (11863283 + / 2) * (11863283 + / 2))
      with 16777216 in Hlo by (field; lra).
    lra. }
  assert (Hhi' : 11863283 * sqrt 2 < 16777216).
  { apply (Rmult_lt_compat_r 11863283) in Hhi; [|lra].
    replace (16777216 / 11863283 * 11863283) with 16777216 in Hhi
      by (field; lra).
    lra. }
  unfold F32.h. apply rnd_half_one.
  - split; nra.
  - split; nra.
Qed.

Ltac device_crunch :=
  cbv -[Rplus Rmult Ropp Rminus Rdiv Rinv IZR cos sin sqrt PI F32.rnd F32.h];
  repeat (rewrite ?Rmult_0_r, ?Rmult_0_l, ?Rmult_1_r, ?Rmult_1_l,
                  ?Rminus_0_r, ?Rplus_0_r, ?Rplus_0_l,
                  ?rnd_0, ?rnd_inv_sqrt2, ?rnd_h).

(** The device's state after the Hadamard gate on |000>. *)
Lemma device_hadamard :
  F32.run [Hadamard 0] create
  = [mkC F32.h 0; Cx.zero; Cx.zero; Cx.zero;
     mkC F32.h 0; Cx.zero; Cx.zero; Cx.zero].
Proof. device_crunch. reflexivity. Qed.

Lemma device_hadamard_norm :
  norm (F32.run [Hadamard 0] create) = sqrt 2 * F32.h.
Proof.
  rewrite device_hadamard. unfold norm.
  replace (norm2 [mkC F32.h 0; Cx.zero; Cx.zero; Cx.zero;
                  mkC F32.h 0; Cx.zero; Cx.zero; Cx.zero])
    with (2 * (F32.h * F32.h)) by (crunch; ring).
  rewrite sqrt_mult_alt by lra. rewrite sqrt_square; [reflexivity|].
  unfold F32.h. lra.
Qed.

Lemma device_hadamard_short :
  / 100000000 < 1 - sqrt 2 * F32.h < 2 / 100000000.
Proof.
  destruct (sqrt2_between (1414213562 / 1000000000) (1414213563 / 1000000000))
    as [Hlo Hhi]; try lra.
  unfold F32.h. lra.
Qed.

Lemma real_first_gate (p t o : R) :
  firstn 1 (tape_of (real [p; t; o])) = [Hadamard 0].
Proof. reflexivity. Qed.

Lemma generator_first_gate (g : list R) :
  (9 <= length g)%nat -> firstn 1 (tape_of (generator g)) = [Hadamard 0].
Proof.
  intros Hg. unfold tape_of. rewrite generator_firstn.
  pose proof (firstn_9_length g Hg) as H. explode_weights H. reflexivity.
Qed.

Lemma discriminator_first_gate (d : list R) :
  (9 <= length d)%nat -> firstn 1 (tape_of (discriminator d)) = [Hadamard 0].
Proof.
  intros Hd. unfold tape_of. rewrite discriminator_firstn.
  pose proof (firstn_9_length d Hd) as H. explode_weights H. reflexivity.
Qed.

(** On the device the Hadamard gate that opens the real-data circuit
    already takes |000> to a vector whose norm is not 1, and is further
    from 1 than 1e-9. *)
Lemma unit_norm_device_counterexample :
  incl [Hadamard 0]
       (tape_of (real [PI / 6; PI / 2; PI / 7])
        ++ tape_of (generator ref_gen_weights)
        ++ tape_of (discriminator ref_disc_weights)) /\
  norm (F32.run [Hadamard 0] create) <> 1 /\
  / 1000000000 < Rabs (norm (F32.run [Hadamard 0] create) - 1).
Proof.
  pose proof device_hadamard_short as H.
  split; [|split].
  - intros x [<- | []]. left. reflexivity.
  - rewrite device_hadamard_norm. lra.
  - rewrite device_hadamard_norm. rewrite Rabs_left by lra. lra.
Qed.

(** C3: any sequence of gates drawn from the real, generator and
    discriminator circuits, applied to |000>, gives an amplitude vector of
    2-norm 1 when the amplitudes are exact reals.  In the device's single
    precision the norm is not kept: the Hadamard gate that opens each of
    the three circuits leaves a vector of norm sqrt 2 * fl(1 / sqrt 2),
    which is below 1 by more than 1e-8 and less than 2e-8. *)
Theorem unit_norm_exact_not_device (p t o : R) (g d : list R) (gs : Circuit) :
  incl gs (tape_of (real [p; t; o]) ++ tape_of (generator g)
           ++ tape_of (discriminator d)) ->
  norm (run gs create) = 1 /\
  norm (F32.run (firstn 1 (tape_of (real [p; t; o]))) create)
  = sqrt 2 * F32.h /\
  ((9 <= length g)%nat ->
   norm (F32.run (firstn 1 (tape_of (generator g))) create)
   = sqrt 2 * F32.h) /\
  ((9 <= length d)%nat ->
   norm (F32.run (firstn 1 (tape_of (discriminator d))) create)
   = sqrt 2 * F32.h) /\
  F32.h = F32.rnd (/ sqrt 2) /\
  / 100000000 < 1 - sqrt 2 * F32.h < 2 / 100000000.
Proof.
  intros Hin.
  split; [exact (exact_gates_keep_unit_norm p t o g d gs Hin)|].
  split; [rewrite real_first_gate; exact device_hadamard_norm|].
  split; [intros Hg; rewrite generator_first_gate by exact Hg;
          exact device_hadamard_norm|].
  split; [intros Hd; rewrite discriminator_first_gate by exact Hd;
          exact device_hadamard_norm|].
  split; [symmetry; exact rnd_inv_sqrt2 | exact device_hadamard_short].
Qed.

Lemma unit_norm_exact_not_device_witness :
  norm (run (tape_of (generator ref_gen_weights)) create) = 1 /\
  norm (F32.run (firstn 1 (tape_of (generator ref_gen_weights))) create)
  = sqrt 2 * F32.h.
Proof.
  destruct (unit_norm_exact_not_device
              (PI / 6) (PI / 2) (PI / 7) ref_gen_weights ref_disc_weights
              (tape_of (generator ref_gen_weights)))
    as (E & _ & Hg & _).
  - intros x Hx. apply in_or_app. right. apply in_or_app. left. exact Hx.
  - split; [exact E|]. apply Hg. apply le_n.
Defined.

(* ================================================================== *)
(** ** Ranges of the probabilities and of the costs, by the norm *)
(* ================================================================== *)

(** The probability read off a state differs from 1/2 by at most half
    the squared norm of the state. *)
Lemma prob_of_state_bounds (s : State) :
  length s = dim ->
  (1 - norm2 s) / 2 <= prob_of_state s <= (1 + norm2 s) / 2.
Proof.
  intros Hs. unfold prob_of_state.
  assert (Hw : (2 < n_wires)%nat) by (unfold n_wires; lia).
  rewrite (expectation_Z_signed 2%nat s Hw Hs).
  pose proof (signed_norm2_bounds 2%nat s Hw Hs). lra.
Qed.

Lemma prob_fake_true_final (g d : list R) :
  (9 <= length g)%nat -> (9 <= length d)%nat ->
  prob_fake_true g d = Some (prob_of_state (final_fake g d)).
Proof.
  intros Hg Hd. unfold prob_fake_true, final_fake, tape_of.
  rewrite gen_disc_circuit_firstn.
  rewrite (generator_firstn g), (discriminator_firstn d).
  rewrite gen_disc_circuit_eq by auto using firstn_9_length.
  reflexivity.
Qed.

Lemma prob_real_true_final (G : Globals) (d : list R) :
  (9 <= length d)%nat ->
  prob_real_true G d = Some (prob_of_state (final_real G d)).
Proof.
  intros Hd. unfold prob_real_true, final_real.
  rewrite real_disc_circuit_firstn.
  unfold tape_of at 2. rewrite (discriminator_firstn d).
  rewrite real_disc_circuit_eq by auto using firstn_9_length.
  reflexivity.
Qed.




(* ================================================================== *)
(** ** The length of the generator's Bloch vector *)
(* ================================================================== *)

(** The squared length of the Bloch vector of wire 0 is at most the
    square of the squared norm of the state. *)
Lemma bloch_length (s : State) :
  length s = dim ->
  expectation (Obs PauliX 0) s * expectation (Obs PauliX 0) s
  + expectation (Obs PauliY 0) s * expectation (Obs PauliY 0) s
  + expectation (Obs PauliZ 0) s * expectation (Obs PauliZ 0) s
  <= norm2 s * norm2 s.
Proof.
  intros Hs. explode_state Hs.
  destruct a as [a0r a0i], a0 as [a1r a1i], a1 as [a2r a2i],
           a2 as [a3r a3i], a3 as [b0r b0i], a4 as [b1r b1i],
           a5 as [b2r b2i], a6 as [b3r b3i].
  destruct (bloch_components a0r a0i a1r a1i a2r a2i a3r a3i
                             b0r b0i b1r b1i b2r b2i b3r b3i)
    as (EX & EY & EZ & EN).
  cbv zeta in EX, EY, EZ, EN. rewrite EN, EX, EY, EZ.
  exact (bloch_sos a0r a0i a1r a1i a2r a2i a3r a3i
                   b0r b0i b1r b1i b2r b2i b3r b3i).
Qed.

(** X6: [bloch_vector_generator] returns no value for fewer than nine
    weights; for nine or more it returns three numbers, the Pauli X, Y
    and Z expectations on wire 0 of the state the generator prepares.
    For any eight amplitudes the squared length of such a vector is at
    most the square of the squared norm, so the vector leaves the unit
    ball by no more than the norm exceeds 1 (wire 0 may be entangled with
    the workspace wire, so it can be well inside). *)
Theorem bloch_vector_generator_ball (g : list R) :
  match bloch_vector_generator g with
  | Some [x; y; z] =>
      (9 <= length g)%nat /\
      x = expectation (Obs PauliX 0) (run (tape_of (generator g)) create) /\
      y = expectation (Obs PauliY 0) (run (tape_of (generator g)) create) /\
      z = expectation (Obs PauliZ 0) (run (tape_of (generator g)) create)
  | Some _ => False
  | None => (length g < 9)%nat
  end /\
  forall s : State,
    length s = dim ->
    expectation (Obs PauliX 0) s * expectation (Obs PauliX 0) s
    + expectation (Obs PauliY 0) s * expectation (Obs PauliY 0) s
    + expectation (Obs PauliZ 0) s * expectation (Obs PauliZ 0) s
    <= norm2 s * norm2 s.
Proof.
  split; [|exact bloch_length].
  destruct (le_lt_dec 9 (length g)) as [Hg|Hg].
  - unfold tape_of. rewrite (generator_firstn g).
    fold (tape_of (generator (firstn 9 g))).
    rewrite bloch_vector_generator_firstn.
    rewrite bloch_vector_generator_eq by auto using firstn_9_length.
    cbn [map obs]. repeat split. exact Hg.
  - rewrite (bloch_vector_generator_short g Hg). exact Hg.
Qed.

(* ================================================================== *)
(** ** What the two phases write *)
(* ================================================================== *)

Lemma sgd_update_descent (lr : R) (w g w' : list R) :
  sgd_update lr w g = Some w' -> descent_step lr w g w'.
Proof.
  unfold sgd_update.
  destruct (Nat.eqb (length w) (length g)) eqn:E; [|discriminate].
  apply Nat.eqb_eq in E. intros H. injection H as <-.
  split; [symmetry; exact E|]. split.
  - rewrite length_map, length_combine, <- E. apply Nat.min_id.
  - intros i Hi.
    rewrite (nth_indep _ 0 ((fun p : R * R => fst p - lr * snd p) (0, 0))).
    2:{ rewrite length_map, length_combine, <- E, Nat.min_id. exact Hi. }
    rewrite (map_nth (fun p : R * R => fst p - lr * snd p)).
    rewrite combine_nth by exact E. reflexivity.
Qed.

Section Descent.

Variable gradient : (list R -> option R) -> list R -> option (list R).

(** One call of [opt.minimize] on one variable moves that variable
    against the gradient of the cost, taken at its current value. *)
Lemma minimize_descent (cost : Globals -> option R) (v : Var)
      (s s1 : Session) :
  minimize gradient cost [v] s = Some s1 ->
  exists g,
    gradient (fun x => cost (write v x (globals s))) (read v (globals s))
    = Some g /\
    descent_step (learning_rate (opt s)) (read v (globals s)) g
                 (read v (globals s1)).
Proof.
  unfold minimize. cbn [gradients].
  destruct (gradient (fun x => cost (write v x (globals s)))
                     (read v (globals s))) as [g|]; [|discriminate].
  cbn [apply_gradients].
  destruct (sgd_update (learning_rate (opt s)) (read v (globals s)) g)
    as [w'|] eqn:E; [|discriminate].
  intros H. injection H as <-. exists g. split; [reflexivity|].
  cbn [globals]. rewrite read_write. exact (sgd_update_descent _ _ _ _ E).
Qed.

Lemma step_D_descent (k : nat) (s s' : Session) :
  step_D gradient k s = Some s' ->
  exists g,
    gradient (disc_cost (globals s)) (disc_weights (globals s)) = Some g /\
    descent_step (learning_rate (opt s)) (disc_weights (globals s)) g
                 (disc_weights (globals s')) /\
    learning_rate (opt s') = learning_rate (opt s).
Proof.
  intros K.
  destruct (step_shape gradient cost_D DiscWeights k s s' K)
    as (_ & _ & _ & EO & _).
  unfold step_D in K.
  destruct (minimize gradient cost_D [DiscWeights] s) as [s1|] eqn:E1;
    [|discriminate].
  destruct (minimize_descent cost_D DiscWeights s s1 E1) as (g & Eg & Hd).
  assert (EG : globals s' = globals s1).
  { destruct (Nat.eqb (k mod 5) 0);
      [destruct (cost_D (globals s1)); [|discriminate]|];
      injection K as <-; reflexivity. }
  exists g. rewrite EG, EO. split; [exact Eg|]. split; [exact Hd|reflexivity].
Qed.

Lemma step_G_descent (k : nat) (s s' : Session) :
  step_G gradient k s = Some s' ->
  exists g,
    gradient (gen_cost (globals s)) (gen_weights (globals s)) = Some g /\
    descent_step (learning_rate (opt s)) (gen_weights (globals s)) g
                 (gen_weights (globals s')) /\
    learning_rate (opt s') = learning_rate (opt s).
Proof.
  intros K.
  destruct (step_shape gradient cost_G GenWeights k s s' K)
    as (_ & _ & _ & EO & _).
  unfold step_G in K.
  destruct (minimize gradient cost_G [GenWeights] s) as [s1|] eqn:E1;
    [|discriminate].
  destruct (minimize_descent cost_G GenWeights s s1 E1) as (g & Eg & Hd).
  assert (EG : globals s' = globals s1).
  { destruct (Nat.eqb (k mod 5) 0);
      [destruct (cost_G (globals s1)); [|discriminate]|];
      injection K as <-; reflexivity. }
  exists g. rewrite EG, EO. split; [exact Eg|]. split; [exact Hd|reflexivity].
Qed.

Lemma phase_D_rate (s sk : Session) (k : nat) :
  for_range k (step_D gradient) s = Some sk ->
  learning_rate (opt sk) = learning_rate (opt s).
Proof.
  apply (for_range_rel
           (fun _ sj => learning_rate (opt sj) = learning_rate (opt s)));
    [reflexivity|].
  intros j sj sj' _ Hj E.
  destruct (step_D_descent j sj sj' E) as (_ & _ & _ & ->). exact Hj.
Qed.

Lemma phase_G_rate (s sk : Session) (k : nat) :
  for_range k (step_G gradient) s = Some sk ->
  learning_rate (opt sk) = learning_rate (opt s).
Proof.
  apply (for_range_rel
           (fun _ sj => learning_rate (opt sj) = learning_rate (opt s)));
    [reflexivity|].
  intros j sj sj' _ Hj E.
  destruct (step_G_descent j sj sj' E) as (_ & _ & _ & ->). exact Hj.
Qed.

Hypothesis gradient_shape : gradient_defined gradient.

(** Iteration [k] of Phase D is a descent step on the discriminator
    weights. *)
Lemma phase_D_descends (s : Session) (k : nat) :
  shapes_ok s ->
  exists sk sk' g,
    for_range k (step_D gradient) s = Some sk /\
    for_range (S k) (step_D gradient) s = Some sk' /\
    gradient (disc_cost (globals sk)) (disc_weights (globals sk)) = Some g /\
    descent_step (learning_rate (opt s)) (disc_weights (globals sk)) g
                 (disc_weights (globals sk')).
Proof.
  intros Hs.
  destruct (steps_D gradient gradient_shape s k Hs) as (sk & E & Hsk & _).
  destruct (step_D_ok gradient gradient_shape k sk Hsk) as (sk' & E' & _).
  destruct (step_D_descent k sk sk' E') as (g & Eg & Hd & _).
  exists sk, sk', g. split; [exact E|]. split.
  - rewrite for_range_S, E. exact E'.
  - split; [exact Eg|]. rewrite <- (phase_D_rate s sk k E). exact Hd.
Qed.

(** Iteration [k] of Phase G is a descent step on the generator
    weights. *)
Lemma phase_G_descends (s : Session) (k : nat) :
  shapes_ok s ->
  exists sk sk' g,
    for_range k (step_G gradient) s = Some sk /\
    for_range (S k) (step_G gradient) s = Some sk' /\
    gradient (gen_cost (globals sk)) (gen_weights (globals sk)) = Some g /\
    descent_step (learning_rate (opt s)) (gen_weights (globals sk)) g
                 (gen_weights (globals sk')).
Proof.
  intros Hs.
  destruct (steps_G gradient gradient_shape s k Hs) as (sk & E & Hsk & _).
  destruct (step_G_ok gradient gradient_shape k sk Hsk) as (sk' & E' & _).
  destruct (step_G_descent k sk sk' E') as (g & Eg & Hd & _).
  exists sk, sk', g. split; [exact E|]. split.
  - rewrite for_range_S, E. exact E'.
  - split; [exact Eg|]. rewrite <- (phase_G_rate s sk k E). exact Hd.
Qed.

(** C7: training is 50 iterations on the discriminator, each of which
    moves the discriminator weights one gradient-descent step on
    [disc_cost] while the generator weights do not change, followed
    without any test by 50 iterations on the generator, each of which
    moves the generator weights one gradient-descent step on [gen_cost]
    while the discriminator weights stay at the values the first phase
    left; there is one such alternation, 100 optimiser steps in all. *)
Theorem two_phase_training (s : Session) :
  length (gen_weights (globals s)) = 9%nat ->
  length (disc_weights (globals s)) = 9%nat ->
  exists sD sR sG sEnd : Session,
    phase_D gradient s = Some sD /\
    report_D sD = Some sR /\
    phase_G gradient sR = Some sG /\
    report_G sG = Some sEnd /\
    train gradient s = Some sEnd /\
    (forall k, (k <= 50)%nat ->
       exists sk, for_range k (step_D gradient) s = Some sk /\
                  gen_weights (globals sk) = gen_weights (globals s) /\
                  iterations (opt sk) = (iterations (opt s) + k)%nat) /\
    (forall k, (k < 50)%nat ->
       exists sk sk' g,
         for_range k (step_D gradient) s = Some sk /\
         for_range (S k) (step_D gradient) s = Some sk' /\
         gradient (disc_cost (globals sk)) (disc_weights (globals sk))
         = Some g /\
         descent_step (learning_rate (opt s)) (disc_weights (globals sk)) g
                      (disc_weights (globals sk'))) /\
    (forall k, (k <= 50)%nat ->
       exists sk, for_range k (step_G gradient) sR = Some sk /\
                  disc_weights (globals sk) = disc_weights (globals sD) /\
                  iterations (opt sk) = (iterations (opt sD) + k)%nat) /\
    (forall k, (k < 50)%nat ->
       exists sk sk' g,
         for_range k (step_G gradient) sR = Some sk /\
         for_range (S k) (step_G gradient) sR = Some sk' /\
         gradient (gen_cost (globals sk)) (gen_weights (globals sk))
         = Some g /\
         descent_step (learning_rate (opt s)) (gen_weights (globals sk)) g
                      (gen_weights (globals sk'))) /\
    iterations (opt sD) = (iterations (opt s) + 50)%nat /\
    iterations (opt sG) = (iterations (opt sD) + 50)%nat /\
    gen_weights (globals sD) = gen_weights (globals s) /\
    disc_weights (globals sG) = disc_weights (globals sD) /\
    globals sEnd = globals sG /\
    iterations (opt sEnd) = (iterations (opt s) + 100)%nat.
Proof.
  intros HG HD.
  assert (Hs : shapes_ok s) by (split; assumption).
  destruct (steps_D gradient gradient_shape s 50 Hs)
    as (sD & ED & HsD & EgD & EiD).
  destruct (report_D_ok sD HsD) as (sR & ER & EGR & EOR).
  assert (HsR : shapes_ok sR) by (unfold shapes_ok; rewrite EGR; exact HsD).
  destruct (steps_G gradient gradient_shape sR 50 HsR)
    as (sG & EGp & HsG & EdG & EiG).
  destruct (report_G_ok sG HsG) as (sEnd & EE & EGE & EOE).
  assert (Erate : learning_rate (opt sR) = learning_rate (opt s))
    by (rewrite EOR; exact (phase_D_rate s sD 50 ED)).
  exists sD, sR, sG, sEnd.
  split; [exact ED|]. split; [exact ER|]. split; [exact EGp|].
  split; [exact EE|].
  split.
  { unfold train. fold (phase_D gradient s). unfold phase_D, phase_G.
    rewrite ED, ER, EGp. exact EE. }
  split.
  { intros k _.
    destruct (steps_D gradient gradient_shape s k Hs) as (sk & E & _ & Eg & Ei).
    exists sk. split; [exact E|]. split; [exact Eg | exact Ei]. }
  split.
  { intros k _. exact (phase_D_descends s k Hs). }
  split.
  { intros k _.
    destruct (steps_G gradient gradient_shape sR k HsR)
      as (sk & E & _ & Ed & Ei).
    exists sk. rewrite EGR, EOR in *.
    split; [exact E|]. split; [exact Ed | exact Ei]. }
  split.
  { intros k _. rewrite <- Erate. exact (phase_G_descends sR k HsR). }
  rewrite EGR, EOR in *. rewrite EOE.
  repeat split; try assumption; try congruence. lia.
Qed.

End Descent.

Lemma two_phase_training_witness :
  exists sD sG sEnd : Session,
    phase_D shift_gradient ref_session = Some sD /\
    gen_weights (globals sD) = gen_weights (globals ref_session) /\
    disc_weights (globals sG) = disc_weights (globals sD) /\
    train shift_gradient ref_session = Some sEnd /\
    globals sEnd = globals sG /\
    iterations (opt sEnd) = (iterations (opt ref_session) + 100)%nat /\
    exists (s3 s4 : Session) (g : list R),
      for_range 3 (step_D shift_gradient) ref_session = Some s3 /\
      for_range 4 (step_D shift_gradient) ref_session = Some s4 /\
      shift_gradient (disc_cost (globals s3)) (disc_weights (globals s3))
      = Some g /\
      descent_step (learning_rate (opt ref_session))
                   (disc_weights (globals s3)) g (disc_weights (globals s4)).
Proof.
  assert (H3 : (3 < 50)%nat) by lia.
  destruct (two_phase_training shift_gradient shift_gradient_defined
                               ref_session eq_refl eq_refl)
    as (sD & sR & sG & sEnd & ED & _ & _ & _ & E & _ & HD & _ & _ & _ & _ & Eg
        & Ed & EG & I).
  exists sD, sG, sEnd.
  split; [exact ED|]. split; [exact Eg|]. split; [exact Ed|].
  split; [exact E|]. split; [exact EG|]. split; [exact I|].
  exact (HD 3%nat H3).
Defined.

(* ================================================================== *)
(** ** What a training run prints *)
(* ================================================================== *)

(** The lines a loop has printed after [n] iterations, when the body
    prints the cost of the new weights at every step divisible by 5 and
    nothing otherwise. *)
Lemma loop_lines (body : nat -> Session -> option Session)
      (cost : Globals -> option R) (s : Session) (n : nat) :
  (forall k a b, body k a = Some b ->
     if Nat.eqb (k mod 5) 0
     then exists c, cost (globals b) = Some c /\
                    stdout b = stdout a ++ [StepCost k c]
     else stdout b = stdout a) ->
  forall sn, for_range n body s = Some sn ->
  exists out, stdout sn = stdout s ++ out /\
              Forall2 (step_line_of body cost s) out (printed_steps n).
Proof.
  intros Hbody. induction n as [|n IH]; intros sn E.
  - cbn in E. injection E as <-. exists [].
    split; [rewrite app_nil_r; reflexivity | constructor].
  - pose proof E as E'. rewrite for_range_S in E.
    destruct (for_range n body s) as [sk|]; [|discriminate].
    destruct (IH sk eq_refl) as (out & ES & HF).
    pose proof (Hbody n sk sn E) as Hp.
    rewrite printed_steps_S. destruct (Nat.eqb (n mod 5) 0).
    + destruct Hp as (c & Ec & ES'). exists (out ++ [StepCost n c]). split.
      * rewrite ES', ES, app_assoc. reflexivity.
      * apply Forall2_app; [exact HF|]. constructor; [|constructor].
        exists sn, c. split; [exact E'|]. split; [exact Ec | reflexivity].
    + exists out. rewrite app_nil_r. split; [rewrite Hp; exact ES | exact HF].
Qed.

Lemma step_lines_steps (body : nat -> Session -> option Session)
      (cost : Globals -> option R) (s : Session) (out : list Line)
      (ks : list nat) :
  Forall2 (step_line_of body cost s) out ks ->
  map line_step out = map Some ks.
Proof.
  induction 1 as [|l k out ks (sk & c & _ & _ & ->) _ IH]; [reflexivity|].
  cbn [map line_step]. rewrite IH. reflexivity.
Qed.

Lemma report_D_values (s s' : Session) :
  report_D s = Some s' ->
  exists pr pf,
    prob_real_true (globals s) (disc_weights (globals s)) = Some pr /\
    prob_fake_true (gen_weights (globals s)) (disc_weights (globals s))
    = Some pf /\
    globals s' = globals s /\
    stdout s' = stdout s ++ [ProbRealReal pr; ProbFakeReal pf].
Proof.
  unfold report_D.
  destruct (prob_real_true (globals s) (disc_weights (globals s)))
    as [pr|]; [|discriminate].
  destruct (prob_fake_true (gen_weights (globals s))
                           (disc_weights (globals s)))
    as [pf|]; [|discriminate].
  intros K. injection K as <-. exists pr, pf.
  cbn [print globals stdout]. repeat split.
  rewrite <- app_assoc. reflexivity.
Qed.

Lemma report_G_values (s s' : Session) :
  report_G s = Some s' ->
  exists pf pr,
    prob_fake_true (gen_weights (globals s)) (disc_weights (globals s))
    = Some pf /\
    prob_real_true (globals s) (disc_weights (globals s)) = Some pr /\
    globals s' = globals s /\
    stdout s' = stdout s ++ [ProbFakeReal pf; DiscCost (pf - pr)].
Proof.
  unfold report_G, disc_cost.
  destruct (prob_fake_true (gen_weights (globals s))
                           (disc_weights (globals s)))
    as [pf|]; [|discriminate].
  destruct (prob_real_true (globals s) (disc_weights (globals s)))
    as [pr|]; [|discriminate].
  intros K. injection K as <-. exists pf, pr.
  cbn [print globals stdout]. repeat split.
  rewrite <- app_assoc. reflexivity.
Qed.

Section Output.

Variable gradient : (list R -> option R) -> list R -> option (list R).

Lemma step_D_prints (k : nat) (a b : Session) :
  step_D gradient k a = Some b ->
  if Nat.eqb (k mod 5) 0
  then exists c, cost_D (globals b) = Some c /\
                 stdout b = stdout a ++ [StepCost k c]
  else stdout b = stdout a.
Proof.
  intros E.
  destruct (step_shape gradient cost_D DiscWeights k a b E)
    as (_ & _ & _ & _ & H).
  exact H.
Qed.

Lemma step_G_prints (k : nat) (a b : Session) :
  step_G gradient k a = Some b ->
  if Nat.eqb (k mod 5) 0
  then exists c, cost_G (globals b) = Some c /\
                 stdout b = stdout a ++ [StepCost k c]
  else stdout b = stdout a.
Proof.
  intros E.
  destruct (step_shape gradient cost_G GenWeights k a b E)
    as (_ & _ & _ & _ & H).
  exact H.
Qed.

(** X11: a training run that returns has printed, in this order: ten
    step lines for steps 0, 5, ..., 45 of Phase D, each with the
    discriminator cost of the weights just written; the probability of
    real classified as real and of fake classified as real; ten step
    lines for steps 0, 5, ..., 45 of Phase G, each with the generator cost
    of the weights just written; the probability of fake classified as
    real and the discriminator cost.  Phase G leaves the discriminator
    alone, so the first probability is still that of the final weights,
    and the last number printed is the third probability minus the
    first. *)
Theorem training_output (s s' : Session) :
  train gradient s = Some s' ->
  exists (sD sR : Session) (outD outG : list Line) (pr pf pf' dc : R),
    phase_D gradient s = Some sD /\
    report_D sD = Some sR /\
    stdout s' = stdout s ++ outD ++ [ProbRealReal pr; ProbFakeReal pf]
                ++ outG ++ [ProbFakeReal pf'; DiscCost dc] /\
    map line_step outD = map Some [0; 5; 10; 15; 20; 25; 30; 35; 40; 45]%nat /\
    map line_step outG = map Some [0; 5; 10; 15; 20; 25; 30; 35; 40; 45]%nat /\
    Forall2 (step_line_of (step_D gradient) cost_D s) outD
            [0; 5; 10; 15; 20; 25; 30; 35; 40; 45]%nat /\
    Forall2 (step_line_of (step_G gradient) cost_G sR) outG
            [0; 5; 10; 15; 20; 25; 30; 35; 40; 45]%nat /\
    prob_real_true (globals s') (disc_weights (globals s')) = Some pr /\
    prob_fake_true (gen_weights (globals s)) (disc_weights (globals s'))
    = Some pf /\
    prob_fake_true (gen_weights (globals s')) (disc_weights (globals s'))
    = Some pf' /\
    dc = pf' - pr.
Proof.
  intros E.
  destruct (train_stages gradient s s' E) as (sD & sR & sG & ED & ER & EG & EE).
  destruct (loop_lines (step_D gradient) cost_D s 50 step_D_prints sD ED)
    as (outD & DS & DF).
  destruct (loop_lines (step_G gradient) cost_G sR 50 step_G_prints sG EG)
    as (outG & GS & GF).
  destruct (phase_D_trace gradient s sD ED) as ((wD & _ & EGD) & _).
  destruct (phase_G_trace gradient sR sG EG) as ((wG & _ & EGG) & _).
  destruct (report_D_values sD sR ER) as (pr & pf & Epr & Epf & EGR & RS).
  destruct (report_G_values sG s' EE) as (pf' & pr' & Epf' & Epr' & EGE & ES').
  rewrite EGG, EGR, EGD in Epf', Epr'. rewrite EGD in Epr, Epf.
  cbn [write set_gen_weights set_disc_weights gen_weights disc_weights]
    in Epf', Epr', Epr, Epf.
  unfold prob_real_true in Epr, Epr'.
  cbn [set_gen_weights set_disc_weights phi theta omega] in Epr, Epr'.
  assert (Ep : pr' = pr) by congruence. subst pr'.
  exists sD, sR, outD, outG, pr, pf, pf', (pf' - pr).
  split; [exact ED|]. split; [exact ER|].
  split.
  { rewrite ES', GS, RS, DS. rewrite <- !app_assoc. reflexivity. }
  split; [exact (step_lines_steps _ _ _ _ _ DF)|].
  split; [exact (step_lines_steps _ _ _ _ _ GF)|].
  split; [exact DF|]. split; [exact GF|].
  rewrite EGE, EGG, EGR, EGD.
  cbn [write set_gen_weights set_disc_weights gen_weights disc_weights].
  unfold prob_real_true.
  cbn [set_gen_weights set_disc_weights phi theta omega].
  split; [exact Epr|]. split; [exact Epf|]. split; [exact Epf'|reflexivity].
Qed.

End Output.

Lemma training_output_witness :
  exists s' (outD outG : list Line) (pr pf pf' : R),
    train shift_gradient ref_session = Some s' /\
    stdout s' = stdout ref_session ++ outD
                ++ [ProbRealReal pr; ProbFakeReal pf]
                ++ outG ++ [ProbFakeReal pf'; DiscCost (pf' - pr)] /\
    length outD = 10%nat /\ length outG = 10%nat /\
    prob_real_true (globals s') (disc_weights (globals s')) = Some pr.
Proof.
  assert (Hs : shapes_ok ref_session) by (split; reflexivity).
  destruct (train_total shift_gradient ref_session shift_gradient_defined Hs)
    as (s' & E & _).
  destruct (training_output shift_gradient ref_session s' E)
    as (sD & sR & outD & outG & pr & pf & pf' & dc & _ & _ & ES & HD & HG
        & _ & _ & Epr & _ & _ & ->).
  exists s', outD, outG, pr, pf, pf'.
  split; [exact E|]. split; [exact ES|].
  split; [|split].
  - rewrite <- (length_map line_step outD), HD. reflexivity.
  - rewrite <- (length_map line_step outG), HG. reflexivity.
  - exact Epr.
Defined.
